(** * The system navigator (src/main.js): a shallow embedding

    The program is a read-eval-print loop over a command table.  Every
    handler is an [async] function that is awaited by the line callback
    before the prompt is shown again, so a handler is modelled as one
    transition of a state-and-exception monad over a [World]: the
    filesystem tree, the process working directory, what was written to
    the console, and the filesystem calls that were issued.  This is
    the run of a line whose callback has the process to itself, as it
    has when the user waits for the prompt before the next line;
    [readline] itself does not wait for the callback, so the handlers
    of lines that arrive together take turns at every [await], and
    such runs are not described here.

    Conventions.
    - A JavaScript string is a [string]; its characters are the code
      units U+0000..U+00FF.
    - [undefined] (a parameter for which the line had no token) is
      [None].
    - Paths follow the POSIX flavour of Node's [path] module.
    - The filesystem of a [World] is a tree of regular files,
      directories and special nodes, without symbolic or hard links:
      there two different normalised paths never name the same node.
      Module [linked] puts symbolic links beside the tree and gives
      [cp] and [mv] over them, where a file has more than one path. *)

From Stdlib Require Import String Ascii List Bool Arith ZArith Lia.
From Stdlib Require Import Strings.Byte DecimalString.
Import ListNotations.
Open Scope string_scope.

(* ================================================================== *)
(** * Part I: definitions *)
(* ================================================================== *)

(** ** JavaScript strings *)

Definition LF : string := String "010"%char "".
Definition DQ : string := String "034"%char "".
Definition SQ : string := String "039"%char "".

(** [\s] of a regular expression and the characters [trim] removes,
    restricted to U+0000..U+00FF: TAB, LF, VT, FF, CR, SP and NBSP. *)
Definition isWhiteSpace (c : ascii) : bool :=
  let n := nat_of_ascii c in
  (((9 <=? n) && (n <=? 13)) || (n =? 32) || (n =? 160))%nat.

Fixpoint trimStart (s : string) : string :=
  match s with
  | String c s' => if isWhiteSpace c then trimStart s' else s
  | EmptyString => EmptyString
  end.

Fixpoint reverse (acc s : string) : string :=
  match s with
  | String c s' => reverse (String c acc) s'
  | EmptyString => acc
  end.

(** [String.prototype.trim]. *)
Definition trim (s : string) : string :=
  reverse "" (trimStart (reverse "" (trimStart s))).

(** [s.split(/\s+/g)]: the pieces between maximal runs of white space;
    a run at either end leaves an empty piece there, as in JavaScript.
    [skipping] says that the previous character was white space. *)
Fixpoint splitWhiteSpace (skipping : bool) (s : string) : list string :=
  match s with
  | EmptyString => [""]
  | String c s' =>
      if isWhiteSpace c then
        if skipping then splitWhiteSpace true s'
        else "" :: splitWhiteSpace true s'
      else
        match splitWhiteSpace false s' with
        | piece :: pieces => String c piece :: pieces
        | [] => [String c ""]
        end
  end.

Definition split_ws (s : string) : list string := splitWhiteSpace false s.

(** [!x] for a parameter that is a string or [undefined]. *)
Definition falsy (x : option string) : bool :=
  match x with
  | None => true
  | Some s => (s =? "")
  end.

Definition string_of_nat (n : nat) : string :=
  NilEmpty.string_of_uint (Nat.to_uint n).

(** [JSON.stringify] of a string: the quotes and the escapes of the
    characters an end-of-line marker or a path can hold. *)
Fixpoint jsonEscape (s : string) : string :=
  match s with
  | EmptyString => EmptyString
  | String c s' =>
      let n := nat_of_ascii c in
      (if (n =? 10)%nat then "\n"
       else if (n =? 13)%nat then "\r"
       else if (n =? 9)%nat then "\t"
       else if (n =? 34)%nat then "\" ++ DQ
       else if (n =? 92)%nat then "\\"
       else String c "") ++ jsonEscape s'
  end.

Definition JSON_stringify (s : string) : string := DQ ++ jsonEscape s ++ DQ.

(** ** Node's [path] module, POSIX flavour *)

Module path.

Definition isSlash (c : ascii) : bool := (c =? "/")%char.

(** The segments between the separators of a path. *)
Fixpoint segments (s : string) : list string :=
  match s with
  | EmptyString => [""]
  | String c s' =>
      if isSlash c then "" :: segments s'
      else
        match segments s' with
        | seg :: segs => String c seg :: segs
        | [] => [String c ""]
        end
  end.

(** [normalizeString]: empty and [.] segments are dropped, [..] removes
    the segment before it; above the start it is kept when
    [allowAboveRoot] and dropped otherwise.  [stack] holds the segments
    kept so far, last first. *)
Fixpoint normalizeSegments (allowAboveRoot : bool) (stack segs : list string)
  : list string :=
  match segs with
  | [] => rev stack
  | seg :: rest =>
      if (seg =? "") || (seg =? ".") then
        normalizeSegments allowAboveRoot stack rest
      else if seg =? ".." then
        match stack with
        | top :: below =>
            if top =? ".." then
              normalizeSegments allowAboveRoot (".." :: stack) rest
            else normalizeSegments allowAboveRoot below rest
        | [] =>
            if allowAboveRoot then
              normalizeSegments allowAboveRoot [".."] rest
            else normalizeSegments allowAboveRoot [] rest
        end
      else normalizeSegments allowAboveRoot (seg :: stack) rest
  end.

Fixpoint joinSegments (segs : list string) : string :=
  match segs with
  | [] => ""
  | [seg] => seg
  | seg :: rest => seg ++ "/" ++ joinSegments rest
  end.

Definition isAbsolute (s : string) : bool :=
  match s with
  | String c _ => isSlash c
  | EmptyString => false
  end.

(** The loop of [path.resolve]: the arguments are taken from the right
    until one is absolute; [argsRev] is the argument list reversed, with
    the working directory as its last element. *)
Fixpoint resolveLoop (argsRev : list string) (resolvedPath : string)
  : string * bool :=
  match argsRev with
  | [] => (resolvedPath, false)
  | p :: more =>
      if p =? "" then resolveLoop more resolvedPath
      else
        let resolvedPath' := p ++ "/" ++ resolvedPath in
        if isAbsolute p then (resolvedPath', true)
        else resolveLoop more resolvedPath'
  end.

(** [path.resolve(...args)] in a process whose working directory is
    [cwd]. *)
Definition resolve (cwd : string) (args : list string) : string :=
  let (resolvedPath, resolvedAbsolute) := resolveLoop (rev args ++ [cwd]) "" in
  let segs :=
    normalizeSegments (negb resolvedAbsolute) [] (segments resolvedPath) in
  if resolvedAbsolute then "/" ++ joinSegments segs
  else match segs with
       | [] => "."
       | _ => joinSegments segs
       end.

Fixpoint lastNonEmpty (segs : list string) (found : string) : string :=
  match segs with
  | [] => found
  | seg :: rest => lastNonEmpty rest (if seg =? "" then found else seg)
  end.

(** [path.basename(p)]: the last segment, trailing separators ignored. *)
Definition basename (p : string) : string := lastNonEmpty (segments p) "".

(** [path.normalize(p)]. *)
Definition normalize (p : string) : string :=
  if p =? "" then "."
  else
    let absolute := isAbsolute p in
    let trailing := isAbsolute (reverse "" p) in
    let body := joinSegments (normalizeSegments (negb absolute) [] (segments p)) in
    if body =? "" then
      if absolute then "/" else if trailing then "./" else "."
    else
      (if absolute then "/" else "") ++ body ++ (if trailing then "/" else "").

(** [path.join(...args)]: the non-empty arguments joined by a separator,
    then normalised. *)
Definition join (args : list string) : string :=
  match filter (fun a => negb (a =? "")) args with
  | [] => "."
  | parts => normalize (joinSegments parts)
  end.

(** The scan of [path.dirname] over the characters after the first,
    from the end: [dropTail matchedSlash rest] is what is left of [rest]
    (given last character first) when the scan stops at the first
    separator that follows a non-separator, or [None] when it reaches
    the start. *)
Fixpoint dropTail (matchedSlash : bool) (revRest : string) : option string :=
  match revRest with
  | EmptyString => None
  | String c more =>
      if isSlash c then
        if matchedSlash then dropTail true more else Some more
      else dropTail false more
  end.

(** [path.dirname(p)]. *)
Definition dirname (p : string) : string :=
  match p with
  | EmptyString => "."
  | String c0 rest =>
      match dropTail true (reverse "" rest) with
      | None => if isSlash c0 then "/" else "."
      | Some revKept =>
          if isSlash c0 && (revKept =? "") then "//"
          else String c0 (reverse "" revKept)
      end
  end.

(** The path the operating system walks for an absolute path string:
    its components below the root. *)
Definition components (p : string) : list string :=
  normalizeSegments false [] (segments p).

End path.


(** ** The filesystem *)

Set Warnings "-register-all".

(** What a path can name.  [Other] is a node that is neither a regular
    file nor a directory and cannot be opened as a file (a socket). *)
Inductive node : Type :=
| File (content : list byte)
| Dir (entries : list (string * node))
| Other.

Inductive errno : Type :=
| ENOENT | ENOTDIR | EISDIR | EEXIST | ENXIO | ENOTEMPTY | EINVAL | EBUSY
| ELOOP.

Definition errnoName (e : errno) : string :=
  match e with
  | ENOENT => "ENOENT" | ENOTDIR => "ENOTDIR" | EISDIR => "EISDIR"
  | EEXIST => "EEXIST" | ENXIO => "ENXIO" | ENOTEMPTY => "ENOTEMPTY"
  | EINVAL => "EINVAL" | EBUSY => "EBUSY" | ELOOP => "ELOOP"
  end.

Definition errnoText (e : errno) : string :=
  match e with
  | ENOENT => "no such file or directory"
  | ENOTDIR => "not a directory"
  | EISDIR => "illegal operation on a directory"
  | EEXIST => "file already exists"
  | ENXIO => "no such device or address"
  | ENOTEMPTY => "directory not empty"
  | EINVAL => "invalid argument"
  | EBUSY => "resource busy or locked"
  | ELOOP => "too many symbolic links encountered"
  end.

Module fs.

Fixpoint entry (name : string) (es : list (string * node)) : option node :=
  match es with
  | [] => None
  | (k, n) :: es' => if k =? name then Some n else entry name es'
  end.

(** Every entry called [name] is taken out. *)
Fixpoint removeEntry (name : string) (es : list (string * node))
  : list (string * node) :=
  match es with
  | [] => []
  | (k, n) :: es' =>
      if k =? name then removeEntry name es' else (k, n) :: removeEntry name es'
  end.

(** The entry called [name] is replaced where it stands, or added at the
    end. *)
Fixpoint putEntry (name : string) (n : node) (es : list (string * node))
  : list (string * node) :=
  match es with
  | [] => [(name, n)]
  | (k, m) :: es' =>
      if k =? name then (name, n) :: es' else (k, m) :: putEntry name n es'
  end.

(** The walk from [n] along the components [p]. *)
Fixpoint lookup (p : list string) (n : node) : errno + node :=
  match p with
  | [] => inr n
  | name :: rest =>
      match n with
      | Dir es =>
          match entry name es with
          | Some child => lookup rest child
          | None => inl ENOENT
          end
      | _ => inl ENOTDIR
      end
  end.

(** The walk to the directory that holds the last component of [p],
    where [f] decides what becomes of the entry: a new node, its removal
    ([None]) or an error.  The root itself has no entry. *)
Fixpoint alter (f : option node -> errno + option node) (p : list string)
  (n : node) : errno + node :=
  match p with
  | [] => inl EBUSY
  | name :: rest =>
      match n with
      | Dir es =>
          match rest with
          | [] =>
              match f (entry name es) with
              | inl e => inl e
              | inr (Some m) => inr (Dir (putEntry name m es))
              | inr None => inr (Dir (removeEntry name es))
              end
          | _ :: _ =>
              match entry name es with
              | Some child =>
                  match alter f rest child with
                  | inl e => inl e
                  | inr child' => inr (Dir (putEntry name child' es))
                  end
              | None => inl ENOENT
              end
          end
      | _ => inl ENOTDIR
      end
  end.

(** [open(p, O_WRONLY | O_CREAT | O_TRUNC)], the flag [w] of a write
    stream: the file is created, or emptied when it is there. *)
Definition openTruncate (p : list string) (root : node) : errno + node :=
  match p with
  | [] => inl EISDIR
  | _ =>
      alter (fun old =>
               match old with
               | None | Some (File _) => inr (Some (File []))
               | Some (Dir _) => inl EISDIR
               | Some Other => inl ENXIO
               end) p root
  end.

(** What a write stream leaves in the file it opened, once it finished. *)
Definition store (content : list byte) (p : list string) (root : node)
  : errno + node :=
  match p with
  | [] => inl EISDIR
  | _ =>
      alter (fun old =>
               match old with
               | Some (File _) => inr (Some (File content))
               | Some (Dir _) => inl EISDIR
               | Some Other => inl ENXIO
               | None => inl ENOENT
               end) p root
  end.

(** [open(p, O_WRONLY | O_CREAT | O_EXCL)], the flag [wx]. *)
Definition createExclusive (p : list string) (root : node) : errno + node :=
  match p with
  | [] => inl EEXIST
  | _ =>
      alter (fun old =>
               match old with
               | None => inr (Some (File []))
               | Some _ => inl EEXIST
               end) p root
  end.

(** [unlink(p)]. *)
Definition unlink (p : list string) (root : node) : errno + node :=
  match p with
  | [] => inl EISDIR
  | _ =>
      alter (fun old =>
               match old with
               | None => inl ENOENT
               | Some (Dir _) => inl EISDIR
               | Some _ => inr None
               end) p root
  end.

(** The bytes a read stream delivers. *)
Definition read (p : list string) (root : node) : errno + list byte :=
  match lookup p root with
  | inl e => inl e
  | inr (File content) => inr content
  | inr (Dir _) => inl EISDIR
  | inr Other => inl ENXIO
  end.

Fixpoint isPrefix (p q : list string) : bool :=
  match p, q with
  | [], _ => true
  | a :: p', b :: q' => (a =? b) && isPrefix p' q'
  | _ :: _, [] => false
  end.

Fixpoint samePath (p q : list string) : bool :=
  match p, q with
  | [], [] => true
  | a :: p', b :: q' => (a =? b) && samePath p' q'
  | _, _ => false
  end.

(** [rename(old, new)]. *)
Definition rename (old new : list string) (root : node) : errno + node :=
  match old with
  | [] => inl EBUSY
  | _ =>
      match lookup old root with
      | inl e => inl e
      | inr moved =>
          if samePath old new then inr root
          else if isPrefix old new then inl EINVAL
          else
            match
              alter (fun there =>
                       match there, moved with
                       | None, _ => inr (Some moved)
                       | Some (Dir []), Dir _ => inr (Some moved)
                       | Some (Dir _), Dir _ => inl ENOTEMPTY
                       | Some (Dir _), _ => inl EISDIR
                       | Some _, Dir _ => inl ENOTDIR
                       | Some _, _ => inr (Some moved)
                       end) new root
            with
            | inl e => inl e
            | inr root' => alter (fun _ => inr None) old root'
            end
      end
  end.

End fs.

(** What [readdir] with [withFileTypes] reports of an entry. *)
Inductive direntKind : Type := IsDirectory | IsFile | IsNeither.

Definition direntOf (n : node) : direntKind :=
  match n with
  | Dir _ => IsDirectory
  | File _ => IsFile
  | Other => IsNeither
  end.

(** The order in which [scandir] hands out the entries of a directory:
    libuv sorts them by name with [strcmp], byte by byte.  On the
    names of this model that is the order of the code units (the UTF-8
    encoding keeps it). *)
Fixpoint insertByName {A} (e : string * A) (sorted : list (string * A))
  : list (string * A) :=
  match sorted with
  | [] => [e]
  | x :: rest =>
      match String.compare (fst e) (fst x) with
      | Gt => x :: insertByName e rest
      | _ => e :: sorted
      end
  end.

Definition scandirSort {A} (es : list (string * A)) : list (string * A) :=
  fold_right insertByName [] es.

(** ** Errors, console and the world *)

(** A thrown value: [new Error(message)] of the program, the error of a
    failed filesystem call (its code, the call and the paths Node puts
    in the message), or a [TypeError] of the engine. *)
Inductive error : Type :=
| Error (message : string)
| SystemError (code : errno) (syscall : string) (paths : list string)
| TypeError (message : string).

Definition message (e : error) : string :=
  match e with
  | Error m => m
  | TypeError m => m
  | SystemError code syscall paths =>
      errnoName code ++ ": " ++ errnoText code ++ ", " ++ syscall ++
      match paths with
      | [] => ""
      | [p] => " " ++ SQ ++ p ++ SQ
      | p :: q :: _ => " " ++ SQ ++ p ++ SQ ++ " -> " ++ SQ ++ q ++ SQ
      end
  end.

(** A row of the table [ls] prints. *)
Record listing : Type := { Name : string; Type_ : string }.

Inductive output : Type :=
| ConsoleLog (text : string)
| ConsoleWarn (text : string)
| ConsoleError (text : string)
| ConsoleTable (rows : list listing)
| ConsoleTableCpus (rows : list (string * nat))
| StdoutWrite (text : string)
| Prompt.

(** The filesystem calls a handler issues, in the order it issues them. *)
Inductive call : Type :=
| CallStat (p : string)
| CallChdir (p : string)
| CallReaddir (p : string)
| CallOpenRead (p : string)
| CallOpenWrite (p : string)
| CallOpenExclusive (p : string)
| CallUnlink (p : string)
| CallRename (p q : string).

(** What the operating system and the runtime provide. *)
Record Host : Type := {
  homedir : string;
  EOL : string;
  cpus : list (string * nat);
  username : string;
  arch : string;
  localeCompare : string -> string -> Z;
  sha256hex : list byte -> string;
  brotliEncode : list byte -> list byte;
  brotliDecode : list byte -> string + list byte;
  utf8Decode : list byte -> string;
  calledOnUndefined : string -> string
}.

Record World : Type := {
  host : Host;
  root : node;
  cwd : string;
  console : list output;
  calls : list call
}.

Definition withRoot (r : node) (w : World) : World :=
  {| host := host w; root := r; cwd := cwd w;
     console := console w; calls := calls w |}.

Definition withCwd (d : string) (w : World) : World :=
  {| host := host w; root := root w; cwd := d;
     console := console w; calls := calls w |}.

Definition withOutput (o : output) (w : World) : World :=
  {| host := host w; root := root w; cwd := cwd w;
     console := console w ++ [o]; calls := calls w |}.

Definition withCall (c : call) (w : World) : World :=
  {| host := host w; root := root w; cwd := cwd w;
     console := console w; calls := calls w ++ [c] |}.

(** ** The monad of a handler: state, exceptions and process exit *)

Inductive result (A : Type) : Type :=
| Returned (a : A)
| Thrown (e : error)
| Exited (code : Z).
Arguments Returned {A} a.
Arguments Thrown {A} e.
Arguments Exited {A} code.

Definition M (A : Type) : Type := World -> result A * World.

Definition ret {A} (a : A) : M A := fun w => (Returned a, w).

Definition bind {A B} (m : M A) (k : A -> M B) : M B :=
  fun w =>
    match m w with
    | (Returned a, w') => k a w'
    | (Thrown e, w') => (Thrown e, w')
    | (Exited c, w') => (Exited c, w')
    end.

Notation "x <- m ;; k" := (bind m (fun x => k))
  (at level 61, m at next level, right associativity).
Notation "m ;;; k" := (bind m (fun _ => k))
  (at level 61, right associativity).

Definition throw {A} (e : error) : M A := fun w => (Thrown e, w).

Definition processExit {A} (code : Z) : M A := fun w => (Exited code, w).

(** [try { m } catch (e) { handler e }]. *)
Definition tryCatch (m : M unit) (handler : error -> M unit) : M unit :=
  fun w =>
    match m w with
    | (Thrown e, w') => handler e w'
    | other => other
    end.

Definition ask : M World := fun w => (Returned w, w).
Definition emit (o : output) : M unit := fun w => (Returned tt, withOutput o w).
Definition issue (c : call) : M unit := fun w => (Returned tt, withCall c w).
Definition setRoot (r : node) : M unit := fun w => (Returned tt, withRoot r w).
Definition setCwd (d : string) : M unit := fun w => (Returned tt, withCwd d w).

Definition getCurrentWorkingDirectory : M string :=
  fun w => (Returned (cwd w), w).
Definition getUserHomeDirectory : M string :=
  fun w => (Returned (homedir (host w)), w).

Definition consoleLog (text : string) : M unit := emit (ConsoleLog text).

Fixpoint emitAll (os : list output) : M unit :=
  match os with
  | [] => ret tt
  | o :: os' => emit o ;;; emitAll os'
  end.

(** ** The imported filesystem and process functions *)

(** [process.chdir(directory)]: the target must be a directory. *)
Definition changeCurrentDirectory (directory : string) : M unit :=
  w <- ask ;;
  let target := path.resolve (cwd w) [directory] in
  issue (CallChdir target) ;;;
  match fs.lookup (path.components target) (root w) with
  | inr (Dir _) => setCwd target
  | inr _ => throw (SystemError ENOTDIR "chdir" [cwd w; directory])
  | inl e => throw (SystemError e "chdir" [cwd w; directory])
  end.

(** [fs/promises.stat(p)]. *)
Definition getItemMetadata (p : string) : M node :=
  w <- ask ;;
  issue (CallStat p) ;;;
  match fs.lookup (path.components p) (root w) with
  | inr n => ret n
  | inl e => throw (SystemError e "stat" [p])
  end.

(** [fs/promises.readdir(p, { withFileTypes: true })]: the entries
    come sorted by name, as [scandir] leaves them. *)
Definition readDirectoryEntries (p : string) : M (list (string * direntKind)) :=
  w <- ask ;;
  issue (CallReaddir p) ;;;
  match fs.lookup (path.components p) (root w) with
  | inr (Dir es) =>
      ret (scandirSort (map (fun e => (fst e, direntOf (snd e))) es))
  | inr _ => throw (SystemError ENOTDIR "scandir" [p])
  | inl e => throw (SystemError e "scandir" [p])
  end.

(** [fs/promises.writeFile(p, '', { flag: 'wx' })]. *)
Definition createNewFileContent (p : string) : M unit :=
  w <- ask ;;
  issue (CallOpenExclusive p) ;;;
  match fs.createExclusive (path.components p) (root w) with
  | inr r => setRoot r
  | inl e => throw (SystemError e "open" [p])
  end.

(** [fs/promises.unlink(p)]. *)
Definition removeItemFromSystem (p : string) : M unit :=
  w <- ask ;;
  issue (CallUnlink p) ;;;
  match fs.unlink (path.components p) (root w) with
  | inr r => setRoot r
  | inl e => throw (SystemError e "unlink" [p])
  end.

(** [fs/promises.rename(p, q)]. *)
Definition alterItemName (p q : string) : M unit :=
  w <- ask ;;
  issue (CallRename p q) ;;;
  match fs.rename (path.components p) (path.components q) (root w) with
  | inr r => setRoot r
  | inl e => throw (SystemError e "rename" [p; q])
  end.

(** [fs.createReadStream(p)]: the stream opens the file; a failure is
    not thrown but kept for the stream's [error] event. *)
Definition establishReadFlow (p : string) : M (option error) :=
  w <- ask ;;
  issue (CallOpenRead p) ;;;
  match fs.lookup (path.components p) (root w) with
  | inr Other => ret (Some (SystemError ENXIO "open" [p]))
  | inr _ => ret None
  | inl e => ret (Some (SystemError e "open" [p]))
  end.

(** [fs.createWriteStream(p)]: the stream opens the file with flag [w],
    which creates or empties it. *)
Definition establishWriteFlow (p : string) : M (option error) :=
  w <- ask ;;
  issue (CallOpenWrite p) ;;;
  match fs.openTruncate (path.components p) (root w) with
  | inr r => setRoot r ;;; ret None
  | inl e => ret (Some (SystemError e "open" [p]))
  end.

(** What an opened read stream delivers until its [end] event, or the
    error of its [error] event. *)
Definition readAll (p : string) (opened : option error) : M (error + list byte) :=
  w <- ask ;;
  match opened with
  | Some e => ret (inl e)
  | None =>
      match fs.read (path.components p) (root w) with
      | inr content => ret (inr content)
      | inl e => ret (inl (SystemError e "read" []))
      end
  end.

(** What a write stream fed with [content] has done at its [finish]
    event. *)
Definition writeAll (p : string) (content : list byte) : M unit :=
  w <- ask ;;
  match fs.store content (path.components p) (root w) with
  | inr r => setRoot r
  | inl e => throw (SystemError e "write" [])
  end.

(** ** The [data] events of a read stream

    A read stream asks the file for 64 KiB at a time (its default
    [highWaterMark]) and raises one [data] event for what each read
    returned. *)

Definition highWaterMark : N := 65536%N.

(** [current] holds the bytes of the chunk being filled, last first,
    and [room] is how many more it takes. *)
Fixpoint chunkFrom (room : N) (current content : list byte)
  : list (list byte) :=
  match content with
  | [] =>
      match current with
      | [] => []
      | _ => [rev current]
      end
  | b :: rest =>
      if (room =? 0)%N then
        rev current :: chunkFrom (highWaterMark - 1)%N [b] rest
      else chunkFrom (room - 1)%N (b :: current) rest
  end.

Definition chunks (content : list byte) : list (list byte) :=
  chunkFrom highWaterMark [] content.

(** A stream with an encoding decodes each chunk before the event.  Its
    decoder holds back the bytes at the end of a chunk that begin a
    UTF-8 sequence the chunk does not finish, and puts them before the
    next chunk; what it still holds when the file ends is decoded on
    its own.  Nothing is delivered for an empty text.
    [startsSequence needs b]: [b] is the first byte of a sequence of
    more than [needs] bytes. *)
Definition startsSequence (needs : nat) (b : byte) : bool :=
  let n := Byte.to_N b in
  let first :=
    match needs with
    | 1 => 192%N
    | 2 => 224%N
    | _ => 240%N
    end in
  ((first <=? n) && (n <? 248))%N.

Definition continuesSequence (b : byte) : bool :=
  let n := Byte.to_N b in ((128 <=? n) && (n <? 192))%N.

(** How many bytes at the end of [bytes] are held back. *)
Definition incompleteTail (bytes : list byte) : nat :=
  match rev bytes with
  | b1 :: more =>
      if startsSequence 1 b1 then 1
      else if continuesSequence b1 then
        match more with
        | b2 :: more' =>
            if startsSequence 2 b2 then 2
            else if continuesSequence b2 then
              match more' with
              | b3 :: _ => if startsSequence 3 b3 then 3 else 0
              | [] => 0
              end
            else 0
        | [] => 0
        end
      else 0
  | [] => 0
  end.

Fixpoint decodeChunks (decode : list byte -> string) (held : list byte)
  (pieces : list (list byte)) : list string :=
  match pieces with
  | [] =>
      match held with
      | [] => []
      | _ => [decode held]
      end
  | piece :: rest =>
      let bytes := (held ++ piece)%list in
      let whole := (List.length bytes - incompleteTail bytes)%nat in
      match firstn whole bytes with
      | [] => decodeChunks decode (skipn whole bytes) rest
      | text => decode text :: decodeChunks decode (skipn whole bytes) rest
      end
  end.

(** ** [Array.prototype.sort] as the engine runs it

    V8, the engine of every Node release that has [fs/promises], sorts
    an array of fewer than 64 elements in two steps: it takes
    the longest run at the start that is already ascending (or strictly
    descending, which it reverses), and inserts each remaining element
    into the sorted part at the place a binary search finds.  Longer
    arrays are cut into such runs which are then merged; that part is
    not modelled. *)

Section Sort.

Context {A : Type} (comparefn : A -> A -> Z).

(** How many elements after [previous] continue the run. *)
Fixpoint runTail (isDescending : bool) (previous : A) (l : list A) : nat :=
  match l with
  | [] => 0
  | current :: l' =>
      let order := comparefn current previous in
      if isDescending then
        if (order >=? 0)%Z then 0 else S (runTail isDescending current l')
      else
        if (order <? 0)%Z then 0 else S (runTail isDescending current l')
  end.

(** [CountAndMakeRun]: the run at the start, made ascending, and the
    elements after it. *)
Definition countAndMakeRun (l : list A) : list A * list A :=
  match l with
  | elementHigh :: elementLow :: l' =>
      let isDescending := (comparefn elementLow elementHigh <? 0)%Z in
      let runLength := 2 + runTail isDescending elementLow l' in
      let run := firstn runLength l in
      (if isDescending then rev run else run, skipn runLength l)
  | _ => (l, [])
  end.

(** The binary search of [BinaryInsertionSort] for the place of
    [pivot] between [left] and [right]. *)
Fixpoint insertionPoint (fuel : nat) (pivot : A) (sorted : list A)
  (left right : nat) : nat :=
  match fuel with
  | O => left
  | S fuel' =>
      if (left <? right)%nat then
        let mid := (left + (right - left) / 2)%nat in
        let order := comparefn pivot (nth mid sorted pivot) in
        if (order <? 0)%Z then insertionPoint fuel' pivot sorted left mid
        else insertionPoint fuel' pivot sorted (mid + 1)%nat right
      else left
  end.

Definition insertPivot (sorted : list A) (pivot : A) : list A :=
  let left := insertionPoint (S (length sorted)) pivot sorted 0 (length sorted) in
  firstn left sorted ++ pivot :: skipn left sorted.

Definition binaryInsertionSort (run rest : list A) : list A :=
  fold_left insertPivot rest run.

Definition sort (l : list A) : list A :=
  let (run, rest) := countAndMakeRun l in binaryInsertionSort run rest.

End Sort.

(** ** Property access on an object literal

    An object literal inherits from [Object.prototype]: [object[key]]
    is the own property called [key] when there is one, and otherwise
    the property of that name of [Object.prototype], if any. *)

Definition objectPrototypeKeys : list string :=
  [ "constructor"; "__defineGetter__"; "__defineSetter__"; "hasOwnProperty";
    "__lookupGetter__"; "__lookupSetter__"; "isPrototypeOf";
    "propertyIsEnumerable"; "toString"; "valueOf"; "__proto__";
    "toLocaleString" ].

Inductive property (F : Type) : Type :=
| Own (f : F)
| Inherited (key : string).
Arguments Own {F} f.
Arguments Inherited {F} key.

Fixpoint ownProperty {F} (own : list (string * F)) (key : string) : option F :=
  match own with
  | [] => None
  | (k, f) :: own' => if k =? key then Some f else ownProperty own' key
  end.

(** [object[key]]; [None] is [undefined]. *)
Definition getProperty {F} (own : list (string * F)) (key : string)
  : option (property F) :=
  match ownProperty own key with
  | Some f => Some (Own f)
  | None =>
      if existsb (String.eqb key) objectPrototypeKeys then Some (Inherited key)
      else None
  end.

(** [f(...args)] for an inherited property [f]: the receiver is
    [undefined] and the arguments are strings.  [__proto__] is the
    prototype object, which is not callable; [constructor], [toString]
    and [isPrototypeOf] return; the other methods convert the receiver
    to an object first and throw. *)
Definition callDetached (name : string) (key : string) (args : list string)
  : M unit :=
  if key =? "__proto__" then
    throw (TypeError (name ++ " is not a function"))
  else if (key =? "constructor") || (key =? "toString") || (key =? "isPrototypeOf")
  then ret tt
  else
    w <- ask ;;
    throw (TypeError (calledOnUndefined (host w) key)).

(** [object[key]()] for an inherited property: the receiver is the
    object and there is no argument.  Only [__proto__] (not callable)
    and the two methods that expect a function argument throw. *)
Definition callAsMethod (name : string) (key : string) : M unit :=
  if key =? "__proto__" then
    throw (TypeError (name ++ " is not a function"))
  else if (key =? "__defineGetter__") || (key =? "__defineSetter__") then
    throw (TypeError ("Object.prototype." ++ key ++ ": Expecting function"))
  else ret tt.

(** ** The program: src/main.js *)

(** A parameter inside a template literal or a call that takes a
    string; [undefined] prints as its name. *)
Definition str (x : option string) : string :=
  match x with
  | Some s => s
  | None => "undefined"
  end.

Definition quoted (s : string) : string := DQ ++ s ++ DQ.

Definition displaySalutation : M unit :=
  consoleLog (LF ++ "===== Advanced System Navigator Activated =====" ++ LF).

Definition displayCurrentPath : M unit :=
  here <- getCurrentWorkingDirectory ;;
  consoleLog (LF ++ "[Current Location]: " ++ here) ;;;
  emit Prompt.

Definition navigateUpward : M unit :=
  home <- getUserHomeDirectory ;;
  here <- getCurrentWorkingDirectory ;;
  let usersRoot := path.resolve here [home] in
  here' <- getCurrentWorkingDirectory ;;
  let currentLoc := path.resolve here [here'] in
  if negb (currentLoc =? usersRoot) then changeCurrentDirectory ".."
  else consoleLog "Already at the root user directory. Cannot go further up.".

Definition navigateToSpecificDirectory (destination : option string) : M unit :=
  if falsy destination then throw (Error "Directory path not specified.")
  else
    here <- getCurrentWorkingDirectory ;;
    let prospectivePath := path.resolve here [here; str destination] in
    getItemMetadata prospectivePath ;;;
    changeCurrentDirectory prospectivePath.

Definition typeLabel (k : direntKind) : string :=
  match k with
  | IsDirectory => "Folder"
  | IsFile => "File"
  | IsNeither => "Other"
  end.

(** The comparison function handed to [sort]. *)
Definition compareEntries (h : Host) (itemA itemB : listing) : Z :=
  if Type_ itemA =? Type_ itemB then localeCompare h (Name itemA) (Name itemB)
  else if Type_ itemA =? "Folder" then (-1)%Z else 1%Z.

Definition enumerateDirectoryContents : M unit :=
  here <- getCurrentWorkingDirectory ;;
  entries <- readDirectoryEntries here ;;
  w <- ask ;;
  let formattedEntries :=
    sort (compareEntries (host w))
      (map (fun entry => {| Name := fst entry; Type_ := typeLabel (snd entry) |})
         entries) in
  if (List.length formattedEntries =? 0)%nat then
    consoleLog "This directory is empty."
  else emit (ConsoleTable formattedEntries).

Definition streamResourceContentToConsole (resourcePath : option string) : M unit :=
  if falsy resourcePath then throw (Error "Resource path not specified.")
  else
    here <- getCurrentWorkingDirectory ;;
    let absolutePath := path.resolve here [here; str resourcePath] in
    dataStream <- establishReadFlow absolutePath ;;
    data <- readAll absolutePath dataStream ;;
    match data with
    | inl err => throw (Error ("Error reading resource: " ++ message err))
    | inr content =>
        w <- ask ;;
        emitAll (map StdoutWrite
                   (decodeChunks (utf8Decode (host w)) [] (chunks content))) ;;;
        emit (StdoutWrite LF)
    end.

Definition generateNewEmptyFile (fileName : option string) : M unit :=
  if falsy fileName then throw (Error "File name not specified.")
  else
    here <- getCurrentWorkingDirectory ;;
    let absolutePath := path.resolve here [here; str fileName] in
    createNewFileContent absolutePath ;;;
    consoleLog ("File " ++ quoted (str fileName) ++ " created successfully.").

Definition modifyResourceName (currentPath newNameFragment : option string) : M unit :=
  if falsy currentPath || falsy newNameFragment then
    throw (Error "Original path or new name not specified.")
  else
    here <- getCurrentWorkingDirectory ;;
    let absoluteOriginalPath := path.resolve here [here; str currentPath] in
    let containingDirectory := path.dirname absoluteOriginalPath in
    let absoluteNewPath := path.join [containingDirectory; str newNameFragment] in
    alterItemName absoluteOriginalPath absoluteNewPath ;;;
    consoleLog ("Renamed " ++ quoted (str currentPath) ++ " to " ++
                quoted (str newNameFragment) ++ ".").

(** [readStream.pipe(...).pipe(writeStream)] inside the promise: the
    promise is rejected with the first stream error, wrapped in a new
    [Error] whose message starts with the stage's text, and resolved
    when the write stream has finished.  A failure to open comes
    before any data is read. *)
Definition pipeStreams (readPath writePath : string)
  (readStream writeStream : option error)
  (transform : list byte -> string + list byte)
  (readText transformText writeText : string) : M unit :=
  match readStream, writeStream with
  | Some err, _ => throw (Error (readText ++ message err))
  | None, Some err => throw (Error (writeText ++ message err))
  | None, None =>
      data <- readAll readPath None ;;
      match data with
      | inl err => throw (Error (readText ++ message err))
      | inr content =>
          match transform content with
          | inl text => throw (Error (transformText ++ text))
          | inr transformed =>
              tryCatch (writeAll writePath transformed)
                (fun err => throw (Error (writeText ++ message err)))
          end
      end
  end.

Definition transferResourceViaStream (source destinationContainer : option string)
  (isMoveOperation : bool) : M unit :=
  if falsy source || falsy destinationContainer then
    throw (Error "Source or destination not specified.")
  else
    here <- getCurrentWorkingDirectory ;;
    let absoluteSourcePath := path.resolve here [here; str source] in
    let itemName := path.basename absoluteSourcePath in
    let absoluteDestinationPath :=
      path.resolve here [here; str destinationContainer; itemName] in
    if absoluteSourcePath =? absoluteDestinationPath then
      throw (Error "Source and destination paths are identical.")
    else
      sourceMetadata <- getItemMetadata absoluteSourcePath ;;
      let verb := if isMoveOperation then "move" else "copy" in
      match sourceMetadata with
      | Dir _ => throw (Error ("Cannot " ++ verb ++ " a directory with this command."))
      | _ =>
          readStream <- establishReadFlow absoluteSourcePath ;;
          writeStream <- establishWriteFlow absoluteDestinationPath ;;
          pipeStreams absoluteSourcePath absoluteDestinationPath
            readStream writeStream (fun content => inr content)
            ("Read stream error during " ++ verb ++ ": ") ""
            ("Write stream error during " ++ verb ++ ": ") ;;;
          let target := path.join [str destinationContainer; itemName] in
          if isMoveOperation then
            removeItemFromSystem absoluteSourcePath ;;;
            consoleLog ("Moved " ++ quoted (str source) ++ " to " ++ quoted target ++ ".")
          else
            consoleLog ("Copied " ++ quoted (str source) ++ " to " ++ quoted target ++ ".")
      end.

Definition obliterateSystemItem (itemPath : option string) : M unit :=
  if falsy itemPath then throw (Error "Item path not specified.")
  else
    here <- getCurrentWorkingDirectory ;;
    let absolutePath := path.resolve here [here; str itemPath] in
    removeItemFromSystem absolutePath ;;;
    consoleLog ("Item " ++ quoted (str itemPath) ++ " removed.").

(** The object literal of [reportOperatingSystemProperty]. *)
Definition propertyAccessors : list (string * M unit) :=
  [ ("--EOL",
     w <- ask ;;
     consoleLog ("Default End-Of-Line sequence: " ++ JSON_stringify (EOL (host w))));
    ("--cpus",
     w <- ask ;;
     let cpusData := cpus (host w) in
     consoleLog ("CPU Core Information (Total: " ++
                 string_of_nat (List.length cpusData) ++ "):") ;;;
     emit (ConsoleTableCpus cpusData));
    ("--homedir",
     home <- getUserHomeDirectory ;;
     consoleLog ("User Home Directory: " ++ home));
    ("--username",
     w <- ask ;;
     consoleLog ("Current System User: " ++ username (host w)));
    ("--architecture",
     w <- ask ;;
     consoleLog ("System Architecture: " ++ arch (host w))) ].

Definition reportOperatingSystemProperty (propertyKey : option string) : M unit :=
  if falsy propertyKey then throw (Error "OS property key not specified.")
  else
    match getProperty propertyAccessors (str propertyKey) with
    | Some (Own accessor) => accessor
    | Some (Inherited key) => callAsMethod "propertyAccessors[propertyKey]" key
    | None => throw (Error ("Invalid OS property key: " ++ str propertyKey))
    end.

Definition generateResourceChecksum (resourcePath : option string) : M unit :=
  if falsy resourcePath then throw (Error "Resource path not specified.")
  else
    here <- getCurrentWorkingDirectory ;;
    let absolutePath := path.resolve here [here; str resourcePath] in
    dataStream <- establishReadFlow absolutePath ;;
    data <- readAll absolutePath dataStream ;;
    match data with
    | inl err => throw (Error ("Error during hash calculation: " ++ message err))
    | inr content =>
        w <- ask ;;
        consoleLog ("SHA256 Checksum for " ++ quoted (str resourcePath) ++ ": " ++
                    sha256hex (host w) content)
    end.

Definition transformFileWithBrotli (sourcePath targetPath : option string)
  (mode : string) : M unit :=
  if falsy sourcePath || falsy targetPath then
    throw (Error "Source or target path not specified for transformation.")
  else
    here <- getCurrentWorkingDirectory ;;
    let absoluteSourcePath := path.resolve here [here; str sourcePath] in
    let absoluteTargetPath := path.resolve here [here; str targetPath] in
    readStream <- establishReadFlow absoluteSourcePath ;;
    writeStream <- establishWriteFlow absoluteTargetPath ;;
    w <- ask ;;
    let brotliProcessor :=
      if mode =? "encode" then (fun content => inr (brotliEncode (host w) content))
      else brotliDecode (host w) in
    pipeStreams absoluteSourcePath absoluteTargetPath readStream writeStream
      brotliProcessor
      ("Read stream error during Brotli " ++ mode ++ ": ")
      ("Brotli stream error during " ++ mode ++ ": ")
      ("Write stream error during Brotli " ++ mode ++ ": ") ;;;
    consoleLog ("File " ++ quoted (str sourcePath) ++ " " ++
                (if mode =? "encode" then "compressed" else "decompressed") ++
                " to " ++ quoted (str targetPath) ++ ".").

(** A value of the command table: called with the tokens after the
    command name spread into its parameters.  A parameter beyond the
    tokens is [undefined]; a token beyond the parameters is bound to
    nothing. *)
Definition handler : Type := list string -> M unit.

Definition arg (i : nat) (args : list string) : option string := nth_error args i.

Definition commandRegistry : list (string * handler) :=
  [ ("up", fun _ => navigateUpward);
    ("cd", fun args => navigateToSpecificDirectory (arg 0 args));
    ("ls", fun _ => enumerateDirectoryContents);
    ("cat", fun args => streamResourceContentToConsole (arg 0 args));
    ("add", fun args => generateNewEmptyFile (arg 0 args));
    ("rn", fun args => modifyResourceName (arg 0 args) (arg 1 args));
    ("cp", fun args => transferResourceViaStream (arg 0 args) (arg 1 args) false);
    ("mv", fun args => transferResourceViaStream (arg 0 args) (arg 1 args) true);
    ("rm", fun args => obliterateSystemItem (arg 0 args));
    ("os", fun args => reportOperatingSystemProperty (arg 0 args));
    ("hash", fun args => generateResourceChecksum (arg 0 args));
    ("compress", fun args => transformFileWithBrotli (arg 0 args) (arg 1 args) "encode");
    ("decompress", fun args => transformFileWithBrotli (arg 0 args) (arg 1 args) "decode");
    (".exit", fun _ =>
       consoleLog (LF ++ "Advanced System Navigator session terminated. Goodbye!") ;;;
       processExit 0%Z) ].

(** How many parameters the function registered under a name declares. *)
Definition arity (name : string) : nat :=
  if (name =? "up") || (name =? "ls") || (name =? ".exit") then 0
  else if (name =? "rn") || (name =? "cp") || (name =? "mv") ||
          (name =? "compress") || (name =? "decompress") then 2
  else 1.

(** The lookup in the command table and the call, with its [try] and
    [catch], or the warning. *)
Definition dispatch (operationName : string) (operationArgs : list string)
  : M unit :=
  match getProperty commandRegistry operationName with
  | Some targetFunction =>
      tryCatch
        match targetFunction with
        | Own f => f operationArgs
        | Inherited key => callDetached "targetFunction" key operationArgs
        end
        (fun executionError =>
           emit (ConsoleError ("Error: Operation failed. Details - " ++
                               message executionError)))
  | None =>
      emit (ConsoleWarn "Warning: Unknown operation entered. Please try a valid command.")
  end.

(** The callback of [cliHandler.on('line', ...)]. *)
Definition onLine (userInputLine : string) : M unit :=
  let trimmedInput := trim userInputLine in
  if trimmedInput =? "" then displayCurrentPath
  else
    let tokens := split_ws trimmedInput in
    dispatch (hd "undefined" tokens) (tl tokens) ;;;
    displayCurrentPath.

(** The lines of a user who waits for the prompt: each line arrives
    when the callback of the line before it has finished, until the
    process exits.  (Lines that arrive together are not run like this:
    nothing awaits the callback, and their handlers take turns at every
    [await].) *)
Fixpoint session (lines : list string) : M unit :=
  match lines with
  | [] => ret tt
  | line :: more => onLine line ;;; session more
  end.

(** The callback of [cliHandler.on('close', ...)]. *)
Definition onClose : M unit :=
  consoleLog (LF ++ "Advanced System Navigator session ended.") ;;;
  processExit 0%Z.

(** What the module does when it is loaded, before the first line: the
    change to the home directory, which ends the process with code 1
    when it fails, the salutation and the first prompt. *)
Definition startup : M unit :=
  tryCatch
    (home <- getUserHomeDirectory ;; changeCurrentDirectory home)
    (fun initializationError =>
       emit (ConsoleError
               ("Critical error during initialization, could not change to home directory: " ++
                message initializationError)) ;;;
       processExit 1%Z) ;;;
  displaySalutation ;;;
  displayCurrentPath.

(** ** Symbolic links

    The tree of a [World] has one path to every node.  Here symbolic
    links stand beside the tree, each with the place it occupies (the
    components of its path) and the text it holds, and the filesystem
    calls of [cp] and [mv] walk through them as the kernel does: a
    component that is a link is replaced by the text of the link, read
    from the directory that holds the link or, when the text is
    absolute, from the root.  [stat] and [open] follow a link in the
    last component too; [unlink] removes what the last component
    names, a link included.  The handler below is
    [transferResourceViaStream] again, word for word, over these
    calls. *)

Module linked.

Record LinkedWorld : Type := {
  plain : World;
  symlinks : list (list string * string)
}.

Definition LM (A : Type) : Type := LinkedWorld -> result A * LinkedWorld.

Definition ret {A} (a : A) : LM A := fun w => (Returned a, w).

Definition bind {A B} (m : LM A) (k : A -> LM B) : LM B :=
  fun w =>
    match m w with
    | (Returned a, w') => k a w'
    | (Thrown e, w') => (Thrown e, w')
    | (Exited c, w') => (Exited c, w')
    end.

Declare Scope linked_scope.
Notation "x <- m ;; k" := (bind m (fun x => k))
  (at level 61, m at next level, right associativity) : linked_scope.
Notation "m ;;; k" := (bind m (fun _ => k))
  (at level 61, right associativity) : linked_scope.
#[local] Open Scope linked_scope.

Definition throw {A} (e : error) : LM A := fun w => (Thrown e, w).

Definition tryCatch (m : LM unit) (handler : error -> LM unit) : LM unit :=
  fun w =>
    match m w with
    | (Thrown e, w') => handler e w'
    | other => other
    end.

Definition ask : LM LinkedWorld := fun w => (Returned w, w).

(** A computation on the tree; the links stay as they are. *)
Definition lift {A} (m : M A) : LM A :=
  fun w =>
    let (r, p) := m (plain w) in (r, {| plain := p; symlinks := symlinks w |}).

Definition setSymlinks (links : list (list string * string)) : LM unit :=
  fun w => (Returned tt, {| plain := plain w; symlinks := links |}).

Definition getCurrentWorkingDirectory : LM string := lift getCurrentWorkingDirectory.

Definition consoleLog (text : string) : LM unit := lift (consoleLog text).

Fixpoint linkAt (place : list string) (links : list (list string * string))
  : option string :=
  match links with
  | [] => None
  | (p, text) :: links' =>
      if fs.samePath p place then Some text else linkAt place links'
  end.

Fixpoint dropLink (place : list string) (links : list (list string * string))
  : list (list string * string) :=
  match links with
  | [] => []
  | (p, text) :: links' =>
      if fs.samePath p place then dropLink place links'
      else (p, text) :: dropLink place links'
  end.

(** How many links one walk follows before it gives up. *)
Definition maxLinks : nat := 40.

(** [.] and [..] are looked up in a directory. *)
Definition enter (root : node) (directory : list string) : option errno :=
  match fs.lookup directory root with
  | inr (Dir _) => None
  | inr _ => Some ENOTDIR
  | inl e => Some e
  end.

(** The walk along [todo] from the directory with the components
    [done], which holds no link: the components of the node the walk
    arrives at, with no link among them. *)
Fixpoint walk (links : list (list string * string)) (root : node) (budget : nat)
  : list string -> list string -> errno + list string :=
  fix go (done todo : list string) {struct todo} : errno + list string :=
    match todo with
    | [] => inr done
    | name :: rest =>
        if name =? "" then go done rest
        else if (name =? ".") || (name =? "..") then
          match enter root done with
          | Some e => inl e
          | None => go (if name =? "." then done else removelast done) rest
          end
        else
          match linkAt (done ++ [name])%list links with
          | None => go (done ++ [name])%list rest
          | Some text =>
              match budget with
              | 0 => inl ELOOP
              | S budget' =>
                  walk links root budget'
                    (if path.isAbsolute text then [] else done)
                    (path.segments text ++ rest)%list
              end
          end
    end.

(** Where the path [p] leads, every link followed. *)
Definition physical (w : LinkedWorld) (p : string) : errno + list string :=
  walk (symlinks w) (root (plain w)) maxLinks [] (path.components p).

(** Where the last component of [p] stands: the links of the
    directories before it are followed, the last component is not.
    The root stands nowhere, and cannot be unlinked. *)
Definition place (w : LinkedWorld) (p : string) : errno + list string :=
  match path.components p with
  | [] => inl EISDIR
  | cs =>
      match walk (symlinks w) (root (plain w)) maxLinks [] (removelast cs) with
      | inl e => inl e
      | inr directory => inr (directory ++ [last cs ""])%list
      end
  end.

(** An operation of the tree, at the node [p] leads to. *)
Definition through {A} (w : LinkedWorld) (p : string)
  (operation : list string -> node -> errno + A) : errno + A :=
  match physical w p with
  | inl e => inl e
  | inr q => operation q (root (plain w))
  end.

(** [fs/promises.stat(p)]. *)
Definition getItemMetadata (p : string) : LM node :=
  w <- ask ;;
  lift (issue (CallStat p)) ;;;
  match through w p fs.lookup with
  | inr n => ret n
  | inl e => throw (SystemError e "stat" [p])
  end.

(** [fs/promises.unlink(p)]. *)
Definition removeItemFromSystem (p : string) : LM unit :=
  w <- ask ;;
  lift (issue (CallUnlink p)) ;;;
  match place w p with
  | inl e => throw (SystemError e "unlink" [p])
  | inr q =>
      match linkAt q (symlinks w) with
      | Some _ => setSymlinks (dropLink q (symlinks w))
      | None =>
          match fs.unlink q (root (plain w)) with
          | inr r => lift (setRoot r)
          | inl e => throw (SystemError e "unlink" [p])
          end
      end
  end.

(** [fs.createReadStream(p)]. *)
Definition establishReadFlow (p : string) : LM (option error) :=
  w <- ask ;;
  lift (issue (CallOpenRead p)) ;;;
  match through w p fs.lookup with
  | inr Other => ret (Some (SystemError ENXIO "open" [p]))
  | inr _ => ret None
  | inl e => ret (Some (SystemError e "open" [p]))
  end.

(** [fs.createWriteStream(p)]. *)
Definition establishWriteFlow (p : string) : LM (option error) :=
  w <- ask ;;
  lift (issue (CallOpenWrite p)) ;;;
  match through w p fs.openTruncate with
  | inr r => lift (setRoot r) ;;; ret None
  | inl e => ret (Some (SystemError e "open" [p]))
  end.

Definition readAll (p : string) (opened : option error) : LM (error + list byte) :=
  w <- ask ;;
  match opened with
  | Some e => ret (inl e)
  | None =>
      match through w p fs.read with
      | inr content => ret (inr content)
      | inl e => ret (inl (SystemError e "read" []))
      end
  end.

Definition writeAll (p : string) (content : list byte) : LM unit :=
  w <- ask ;;
  match through w p (fs.store content) with
  | inr r => lift (setRoot r)
  | inl e => throw (SystemError e "write" [])
  end.

Definition pipeStreams (readPath writePath : string)
  (readStream writeStream : option error)
  (transform : list byte -> string + list byte)
  (readText transformText writeText : string) : LM unit :=
  match readStream, writeStream with
  | Some err, _ => throw (Error (readText ++ message err))
  | None, Some err => throw (Error (writeText ++ message err))
  | None, None =>
      data <- readAll readPath None ;;
      match data with
      | inl err => throw (Error (readText ++ message err))
      | inr content =>
          match transform content with
          | inl text => throw (Error (transformText ++ text))
          | inr transformed =>
              tryCatch (writeAll writePath transformed)
                (fun err => throw (Error (writeText ++ message err)))
          end
      end
  end.

Definition transferResourceViaStream (source destinationContainer : option string)
  (isMoveOperation : bool) : LM unit :=
  if falsy source || falsy destinationContainer then
    throw (Error "Source or destination not specified.")
  else
    here <- getCurrentWorkingDirectory ;;
    let absoluteSourcePath := path.resolve here [here; str source] in
    let itemName := path.basename absoluteSourcePath in
    let absoluteDestinationPath :=
      path.resolve here [here; str destinationContainer; itemName] in
    if absoluteSourcePath =? absoluteDestinationPath then
      throw (Error "Source and destination paths are identical.")
    else
      sourceMetadata <- getItemMetadata absoluteSourcePath ;;
      let verb := if isMoveOperation then "move" else "copy" in
      match sourceMetadata with
      | Dir _ => throw (Error ("Cannot " ++ verb ++ " a directory with this command."))
      | _ =>
          readStream <- establishReadFlow absoluteSourcePath ;;
          writeStream <- establishWriteFlow absoluteDestinationPath ;;
          pipeStreams absoluteSourcePath absoluteDestinationPath
            readStream writeStream (fun content => inr content)
            ("Read stream error during " ++ verb ++ ": ") ""
            ("Write stream error during " ++ verb ++ ": ") ;;;
          let target := path.join [str destinationContainer; itemName] in
          if isMoveOperation then
            removeItemFromSystem absoluteSourcePath ;;;
            consoleLog ("Moved " ++ quoted (str source) ++ " to " ++ quoted target ++ ".")
          else
            consoleLog ("Copied " ++ quoted (str source) ++ " to " ++ quoted target ++ ".")
      end.

End linked.

(** ** A small machine to run the program on *)

Definition sampleHost : Host :=
  {| homedir := "/home/u";
     EOL := LF;
     cpus := [("cpu", 2400)];
     username := "u";
     arch := "x64";
     localeCompare := fun a b =>
       match String.compare a b with
       | Lt => (-1)%Z
       | Eq => 0%Z
       | Gt => 1%Z
       end;
     sha256hex := fun _ => "00";
     brotliEncode := fun content => content;
     brotliDecode := fun content => inr content;
     utf8Decode := string_of_list_byte;
     calledOnUndefined := fun _ => "Cannot convert undefined or null to object" |}.

Definition sampleRoot : node :=
  Dir [("home",
        Dir [("u",
              Dir [("projects", Dir []);
                   ("notes.txt", File [x68; x69]%byte);
                   ("sock", Other);
                   ("d", Dir [])])]);
       ("tmp", Dir [])].

Definition sampleWorld : World :=
  {| host := sampleHost; root := sampleRoot; cwd := "/home/u";
     console := []; calls := [] |}.

(** The sample machine with two symbolic links in the home directory:
    [here] holds the text [.], so [/home/u/here/notes.txt] is another
    path to [/home/u/notes.txt]; [shelf] holds the text [d], so
    [/home/u/shelf] leads to the directory [/home/u/d]. *)
Definition linkedWorld : linked.LinkedWorld :=
  {| linked.plain := sampleWorld;
     linked.symlinks := [(["home"; "u"; "here"], ".");
                         (["home"; "u"; "shelf"], "d")] |}.

(** A directory that holds the special nodes [a] and [B] and the
    regular file [F]: [readdir] reports [B], [F], [a]. *)
Definition mixedWorld (h : Host) : World :=
  {| host := h;
     root := Dir [("mixed", Dir [("a", Other); ("F", File []); ("B", Other)])];
     cwd := "/mixed";
     console := []; calls := [] |}.

(** A comparison of names of the kind [localeCompare] makes: letters
    are compared without regard to case first, and of two names that
    differ in case only the one in lower case comes first. *)
Definition toLowerCase (c : ascii) : ascii :=
  let n := nat_of_ascii c in
  if ((65 <=? n) && (n <=? 90))%nat then ascii_of_nat (n + 32) else c.

Fixpoint lowerCase (s : string) : string :=
  match s with
  | EmptyString => EmptyString
  | String c s' => String (toLowerCase c) (lowerCase s')
  end.

Definition sign (c : comparison) : Z :=
  match c with
  | Lt => (-1)%Z
  | Eq => 0%Z
  | Gt => 1%Z
  end.

Definition caseAwareCompare (a b : string) : Z :=
  match String.compare (lowerCase a) (lowerCase b) with
  | Eq => sign (String.compare b a)
  | c => sign c
  end.

(** ** Vocabulary of the statements *)

Fixpoint noSlash (s : string) : bool :=
  match s with
  | EmptyString => true
  | String c s' => negb (path.isSlash c) && noSlash s'
  end.

(** A segment of a normalised path. *)
Definition cleanSegment (s : string) : bool :=
  noSlash s && negb (s =? "") && negb (s =? ".") && negb (s =? "..").

(** The absolute path with the given components. *)
Definition render (cs : list string) : string := "/" ++ path.joinSegments cs.

(** The error kinds of the design (section 7), read off the thrown
    value: the messages of the argument checks, the message of the
    directory check of [cp] and [mv], and the codes of failed
    filesystem calls. *)
Inductive errorKind : Type :=
| InvalidArgument | NotFound | AlreadyExists | UnsupportedOperation
| IOError | EngineError.

Definition argumentMessages : list string :=
  [ "Directory path not specified."; "Resource path not specified.";
    "File name not specified."; "Original path or new name not specified.";
    "Source or destination not specified.";
    "Source and destination paths are identical.";
    "Item path not specified."; "OS property key not specified.";
    "Source or target path not specified for transformation." ].

Definition directoryMessages : list string :=
  [ "Cannot move a directory with this command.";
    "Cannot copy a directory with this command." ].

Definition kindOf (e : error) : errorKind :=
  match e with
  | Error m =>
      if existsb (String.eqb m) argumentMessages
         || prefix "Invalid OS property key: " m then InvalidArgument
      else if existsb (String.eqb m) directoryMessages then UnsupportedOperation
      else IOError
  | SystemError ENOENT _ _ | SystemError ENOTDIR _ _ => NotFound
  | SystemError EEXIST _ _ => AlreadyExists
  | SystemError _ _ _ => IOError
  | TypeError _ => EngineError
  end.

(** The order C6 asks of a table, for a comparison of names: no row
    of another type stands before a row of type [Folder], and of two
    rows of one type the earlier one does not compare above the later
    one. *)
Definition inOrder (compareNames : string -> string -> Z) (earlier later : listing)
  : bool :=
  if Type_ earlier =? Type_ later then
    (compareNames (Name earlier) (Name later) <=? 0)%Z
  else negb (Type_ later =? "Folder").

Fixpoint listedAsClaimed (compareNames : string -> string -> Z)
  (rows : list listing) : bool :=
  match rows with
  | [] => true
  | row :: below =>
      forallb (inOrder compareNames row) below &&
      listedAsClaimed compareNames below
  end.

(** A computation over links does, where there is no link, what the
    computation on the tree does. *)
Definition agrees {A} (lm : linked.LM A) (m : M A) : Prop :=
  forall w, linked.symlinks w = [] -> lm w = linked.lift m w.

(** What a walk reports for the entry it looked for. *)
Definition found (o : option node) : errno + node :=
  match o with
  | Some m => inr m
  | None => inl ENOENT
  end.

Definition isWarning (o : output) : bool :=
  match o with
  | ConsoleWarn _ => true
  | _ => false
  end.

Definition isStreamOpen (c : call) : bool :=
  match c with
  | CallOpenRead _ | CallOpenWrite _ => true
  | _ => false
  end.

(** A line that holds white space only. *)
Fixpoint allWhiteSpace (s : string) : bool :=
  match s with
  | EmptyString => true
  | String c s' => isWhiteSpace c && allWhiteSpace s'
  end.

(** Relations between the world before and after a computation: the
    session part (host and working directory) and the filesystem. *)
Definition sameDirectory (w w' : World) : Prop :=
  host w' = host w /\ cwd w' = cwd w.

Definition sameFiles (w w' : World) : Prop := root w' = root w.

(** A relation that holds from a world to itself, composes, and is not
    disturbed by console output or by the record of a call. *)
Record frame (R : World -> World -> Prop) : Prop := {
  frame_refl : forall w, R w w;
  frame_trans : forall w1 w2 w3, R w1 w2 -> R w2 w3 -> R w1 w3;
  frame_output : forall o w, R w (withOutput o w);
  frame_call : forall c w, R w (withCall c w)
}.

(** The computation relates every world to the world it leaves. *)
Definition keeps {A} (R : World -> World -> Prop) (m : M A) : Prop :=
  forall w, R w (snd (m w)).

(** The computation never ends the process. *)
Definition neverExits {A} (m : M A) : Prop :=
  forall w code, fst (m w) <> Exited code.

(** The computation lets no error escape. *)
Definition neverThrows {A} (m : M A) : Prop :=
  forall w e, fst (m w) <> Thrown e.

(** The names of the commands that write to the filesystem. *)
Definition writingCommands : list string :=
  [ "add"; "rn"; "cp"; "mv"; "rm"; "compress"; "decompress" ].

(* ================================================================== *)
(** * Part II: properties *)
(* ================================================================== *)

(** ** Paths *)

Section PathFacts.

Import path.

Lemma segments_nonempty (s : string) : segments s <> [].
Proof.
  destruct s as [|c s]; simpl; [discriminate|].
  destruct (isSlash c); [discriminate|].
  destruct (segments s); discriminate.
Qed.

Lemma segments_app_slash (a b : string) :
  segments (a ++ "/" ++ b) = (segments a ++ segments b)%list.
Proof.
  induction a as [|c a IH]; simpl in *; [reflexivity|].
  destruct (isSlash c); [now rewrite IH|].
  rewrite IH.
  destruct (segments a) as [|x xs] eqn:E; [now apply segments_nonempty in E|].
  reflexivity.
Qed.

Lemma segments_noSlash (s : string) : noSlash s = true -> segments s = [s].
Proof.
  induction s as [|c s IH]; simpl; [reflexivity|].
  intros H. apply andb_prop in H as [Hc Hs].
  apply negb_true_iff in Hc. rewrite Hc, (IH Hs). reflexivity.
Qed.

Lemma cleanSegment_inv (s : string) :
  cleanSegment s = true ->
  noSlash s = true /\ (s =? "") = false /\ (s =? ".") = false /\ (s =? "..") = false.
Proof.
  unfold cleanSegment. intros H.
  repeat (apply andb_prop in H as [H ?]).
  repeat split; try apply negb_true_iff; assumption.
Qed.

Lemma segments_joinSegments (cs : list string) :
  Forall (fun c => cleanSegment c = true) cs -> cs <> [] ->
  segments (joinSegments cs) = cs.
Proof.
  induction 1 as [|c cs Hc Hcs IH]; [congruence|]. intros _.
  apply cleanSegment_inv in Hc as (Hs & _).
  destruct cs as [|c' cs'].
  - simpl. now apply segments_noSlash.
  - change (joinSegments (c :: c' :: cs')) with (c ++ "/" ++ joinSegments (c' :: cs')).
    rewrite segments_app_slash, (segments_noSlash _ Hs), IH by discriminate.
    reflexivity.
Qed.

Lemma normalizeSegments_app (a : bool) (xs ys stack : list string) :
  normalizeSegments a stack (xs ++ ys) =
  normalizeSegments a (rev (normalizeSegments a stack xs)) ys.
Proof.
  revert stack. induction xs as [|x xs IH]; intros stack; simpl.
  - now rewrite rev_involutive.
  - destruct ((x =? "") || (x =? ".")); [apply IH|].
    destruct (x =? "..").
    + destruct stack as [|top below]; [destruct a; apply IH|].
      destruct (top =? ".."); apply IH.
    + apply IH.
Qed.

Lemma normalizeSegments_clean (a : bool) (cs stack : list string) :
  Forall (fun c => cleanSegment c = true) cs ->
  normalizeSegments a stack cs = (rev stack ++ cs)%list.
Proof.
  intros H. revert stack. induction H as [|c cs Hc _ IH]; intros stack; simpl.
  - now rewrite app_nil_r.
  - apply cleanSegment_inv in Hc as (_ & E1 & E2 & E3).
    rewrite E1, E2, E3. simpl. rewrite IH. simpl.
    now rewrite <- app_assoc.
Qed.

(** What is kept of a path is clean, as long as [..] is not allowed to
    stay. *)
Lemma normalizeSegments_keeps_clean (segs stack : list string) :
  Forall (fun c => noSlash c = true) segs ->
  Forall (fun c => cleanSegment c = true) stack ->
  Forall (fun c => cleanSegment c = true) (normalizeSegments false stack segs).
Proof.
  intros H. revert stack. induction H as [|x xs Hx _ IH]; intros stack Hst; simpl.
  - apply Forall_rev. assumption.
  - destruct (x =? "") eqn:E1; simpl; [now apply IH|].
    destruct (x =? ".") eqn:E2; simpl; [now apply IH|].
    destruct (x =? "..") eqn:E3.
    + destruct stack as [|top below]; [now apply IH|].
      inversion Hst as [|? ? Htop Hbelow]; subst.
      apply cleanSegment_inv in Htop as Htop'. destruct Htop' as (_ & _ & _ & E).
      rewrite E. now apply IH.
    + apply IH. constructor; [|assumption].
      unfold cleanSegment. now rewrite Hx, E1, E2, E3.
Qed.

Lemma segments_all_noSlash (s : string) :
  Forall (fun c => noSlash c = true) (segments s).
Proof.
  induction s as [|c s IH]; simpl; [repeat constructor|].
  destruct (isSlash c) eqn:E; [constructor; [reflexivity|assumption]|].
  destruct (segments s) as [|x xs]; [repeat constructor; simpl; now rewrite E|].
  inversion IH; subst. constructor; [|assumption]. simpl. now rewrite E.
Qed.

(** The operating system finds the components of a rendered path. *)
Lemma components_render (cs : list string) :
  Forall (fun c => cleanSegment c = true) cs -> components (render cs) = cs.
Proof.
  intros H. unfold components, render.
  change ("/" ++ joinSegments cs) with ("" ++ "/" ++ joinSegments cs).
  rewrite segments_app_slash. simpl.
  destruct cs as [|c cs']; [reflexivity|].
  rewrite segments_joinSegments by (assumption || discriminate).
  now rewrite normalizeSegments_clean.
Qed.

Lemma resolveLoop_absolute (argsRev : list string) (cwd acc : string) :
  isAbsolute cwd = true ->
  exists p, resolveLoop (argsRev ++ [cwd]) acc = (p, true).
Proof.
  intros Habs. revert acc. induction argsRev as [|a more IH]; intros acc; simpl.
  - destruct cwd as [|c cwd']; [discriminate|]. simpl in *. rewrite Habs. eauto.
  - destruct (a =? ""); [apply IH|].
    destruct (isAbsolute a); [eauto|apply IH].
Qed.

(** In a process whose working directory is absolute, [path.resolve]
    returns a rendered path with clean components. *)
Lemma resolve_canonical (cwd : string) (args : list string) :
  isAbsolute cwd = true ->
  Forall (fun c => cleanSegment c = true) (components (resolve cwd args)) /\
  resolve cwd args = render (components (resolve cwd args)).
Proof.
  intros Habs. unfold resolve.
  destruct (resolveLoop_absolute (rev args) cwd "" Habs) as [p ->]. simpl negb.
  fold (render (normalizeSegments false [] (segments p))).
  assert (H : Forall (fun c => cleanSegment c = true)
                (normalizeSegments false [] (segments p)))
    by (apply normalizeSegments_keeps_clean; [apply segments_all_noSlash|constructor]).
  rewrite (components_render _ H). split; [assumption|reflexivity].
Qed.

(** Two resolved paths are the same string exactly when they have the
    same components. *)
Lemma resolve_components_inj (cwd : string) (args args' : list string) :
  isAbsolute cwd = true ->
  components (resolve cwd args) = components (resolve cwd args') ->
  resolve cwd args = resolve cwd args'.
Proof.
  intros Habs E.
  rewrite (proj2 (resolve_canonical cwd args Habs)).
  rewrite (proj2 (resolve_canonical cwd args' Habs)).
  now rewrite E.
Qed.

End PathFacts.

(** ** The filesystem tree *)

Section FsFacts.

Import fs.

Lemma entry_putEntry_same (name : string) (m : node) (es : list (string * node)) :
  entry name (putEntry name m es) = Some m.
Proof.
  induction es as [|[k v] es IH]; simpl.
  - now rewrite String.eqb_refl.
  - destruct (k =? name) eqn:E; simpl; [now rewrite String.eqb_refl|].
    now rewrite E.
Qed.

Lemma entry_putEntry_other (name k : string) (m : node) (es : list (string * node)) :
  k <> name -> entry k (putEntry name m es) = entry k es.
Proof.
  intros Hne. induction es as [|[k' v] es IH]; simpl.
  - apply String.eqb_neq in Hne. rewrite String.eqb_sym. now rewrite Hne.
  - destruct (k' =? name) eqn:E; simpl.
    + apply String.eqb_eq in E. subst k'.
      assert ((name =? k) = false) as -> by (apply String.eqb_neq; congruence).
      reflexivity.
    + now rewrite IH.
Qed.

Lemma entry_removeEntry_same (name : string) (es : list (string * node)) :
  entry name (removeEntry name es) = None.
Proof.
  induction es as [|[k v] es IH]; simpl; [reflexivity|].
  destruct (k =? name) eqn:E; simpl; [assumption|]. now rewrite E.
Qed.

Lemma entry_removeEntry_other (name k : string) (es : list (string * node)) :
  k <> name -> entry k (removeEntry name es) = entry k es.
Proof.
  intros Hne. induction es as [|[k' v] es IH]; simpl; [reflexivity|].
  destruct (k' =? name) eqn:E; simpl.
  - apply String.eqb_eq in E. subst k'.
    assert ((name =? k) = false) as -> by (apply String.eqb_neq; congruence).
    assumption.
  - now rewrite IH.
Qed.

(** A successful [alter] applied [f] to what the path named, and the
    path names the outcome afterwards. *)
Lemma alter_inv (f : option node -> errno + option node) (p : list string)
  (n n' : node) :
  alter f p n = inr n' ->
  exists old new, f old = inr new /\ lookup p n = found old /\ lookup p n' = found new.
Proof.
  revert n n'. induction p as [|name rest IH]; intros n n' H; simpl in H; [discriminate|].
  destruct n as [|es|]; try discriminate.
  destruct rest as [|name' rest'].
  - destruct (f (entry name es)) as [e|[m|]] eqn:Ef; inversion H; subst; clear H.
    + exists (entry name es), (Some m). simpl.
      rewrite entry_putEntry_same. repeat split; assumption.
    + exists (entry name es), None. simpl.
      rewrite entry_removeEntry_same. repeat split; assumption.
  - destruct (entry name es) as [child|] eqn:Ec; [|discriminate].
    destruct (alter f (name' :: rest') child) as [e|child'] eqn:Ea; [discriminate|].
    inversion H; subst; clear H.
    destruct (IH _ _ Ea) as (old & new & Hf & Hold & Hnew).
    exists old, new. split; [assumption|].
    change (lookup (name :: name' :: rest') (Dir es))
      with (match entry name es with
            | Some c => lookup (name' :: rest') c
            | None => inl ENOENT
            end).
    change (lookup (name :: name' :: rest') (Dir (putEntry name child' es)))
      with (match entry name (putEntry name child' es) with
            | Some c => lookup (name' :: rest') c
            | None => inl ENOENT
            end).
    rewrite Ec, entry_putEntry_same. split; assumption.
Qed.

(** Where the path names a node, [alter] fails as [f] fails on it. *)
Lemma alter_refused (f : option node -> errno + option node) (p : list string)
  (n m : node) (e : errno) :
  p <> [] -> lookup p n = inr m -> f (Some m) = inl e -> alter f p n = inl e.
Proof.
  revert n. induction p as [|name rest IH]; intros n Hp Hl Hf; [congruence|].
  simpl in Hl. destruct n as [|es|]; try discriminate.
  destruct (entry name es) as [child|] eqn:Ec; [|discriminate].
  destruct rest as [|name' rest'].
  - simpl in Hl. inversion Hl; subst. simpl. now rewrite Ec, Hf.
  - change (alter f (name :: name' :: rest') (Dir es))
      with (match entry name es with
            | Some c =>
                match alter f (name' :: rest') c with
                | inl e => inl e
                | inr c' => inr (Dir (putEntry name c' es))
                end
            | None => inl ENOENT
            end).
    rewrite Ec, (IH child) by (assumption || discriminate). reflexivity.
Qed.

(** An [alter] that never succeeds on a directory leaves every regular
    file at another path as it was. *)
Lemma alter_frame_file (f : option node -> errno + option node)
  (p q : list string) (n n' : node) (content : list byte) :
  (forall es new, f (Some (Dir es)) <> inr new) ->
  alter f p n = inr n' ->
  lookup q n = inr (File content) ->
  q <> p ->
  lookup q n' = inr (File content).
Proof.
  intros Hf. revert q n n'.
  induction p as [|name rest IH]; intros q n n' Ha Hl Hne; simpl in Ha; [discriminate|].
  destruct n as [|es|]; try discriminate.
  destruct q as [|qname qrest]; [simpl in Hl; discriminate|].
  simpl in Hl.
  destruct (String.eqb_spec qname name) as [->|Hname].
  - destruct (entry name es) as [child|] eqn:Ec; [|discriminate].
    destruct rest as [|name' rest'].
    + destruct qrest as [|q1 q2]; [congruence|].
      destruct child as [|ces|]; simpl in Hl; try discriminate.
      destruct (f (Some (Dir ces))) as [e|new] eqn:Ef; [discriminate|].
      now apply Hf in Ef.
    + destruct (alter f (name' :: rest') child) as [e|child'] eqn:Ea; [discriminate|].
      inversion Ha; subst; clear Ha.
      simpl. rewrite entry_putEntry_same.
      apply (IH qrest child child' Ea Hl). congruence.
  - destruct rest as [|name' rest'].
    + destruct (f (entry name es)) as [e|[m|]]; inversion Ha; subst; clear Ha; simpl.
      * now rewrite entry_putEntry_other.
      * now rewrite entry_removeEntry_other.
    + destruct (entry name es) as [child|]; [|discriminate].
      destruct (alter f (name' :: rest') child) as [e|child']; [discriminate|].
      inversion Ha; subst; clear Ha. simpl.
      now rewrite entry_putEntry_other.
Qed.

(** The walk to a node goes through directories only. *)
Lemma lookup_parent (p : list string) (name : string) (n m : node) :
  lookup (p ++ [name]) n = inr m -> exists es, lookup p n = inr (Dir es).
Proof.
  revert n. induction p as [|x p IH]; intros n H; simpl in *.
  - destruct n as [|es|]; try discriminate. eauto.
  - destruct n as [|es|]; try discriminate.
    destruct (entry x es) as [child|]; [|discriminate]. now apply IH.
Qed.

End FsFacts.

(** ** The command table and unknown names *)

(** A name that is neither registered nor a property of
    [Object.prototype] gets the warning and nothing else happens. *)
Lemma dispatch_undefined (name : string) (args : list string) (w : World) :
  getProperty commandRegistry name = None ->
  dispatch name args w =
  (Returned tt,
   withOutput
     (ConsoleWarn "Warning: Unknown operation entered. Please try a valid command.")
     w).
Proof. intros H. unfold dispatch. rewrite H. reflexivity. Qed.

Lemma dispatch_undefined_witness :
  dispatch "nope" ["x"] sampleWorld =
  (Returned tt,
   withOutput
     (ConsoleWarn "Warning: Unknown operation entered. Please try a valid command.")
     sampleWorld).
Proof. exact (dispatch_undefined "nope" ["x"] sampleWorld eq_refl). Defined.

(** C1, at the input line [toString]: the name is not one of the
    fourteen registered commands, but the lookup in the command table
    finds the method that every object literal inherits, calls it, and
    the line ends like an empty line: the working directory and the
    prompt are shown and no warning is printed. *)
Theorem unknown_name_toString_not_warned (w : World) :
  ownProperty commandRegistry "toString" = None /\
  getProperty commandRegistry "toString" = Some (Inherited "toString") /\
  onLine "toString" w = displayCurrentPath w /\
  existsb isWarning (console (snd (onLine "toString" w))) =
  existsb isWarning (console w).
Proof.
  repeat split; try reflexivity.
  change (onLine "toString" w) with (displayCurrentPath w).
  unfold displayCurrentPath, getCurrentWorkingDirectory, consoleLog, emit, bind.
  simpl. rewrite !existsb_app. simpl. now rewrite !orb_false_r.
Qed.

(** ** [os] *)

(** A key that is neither one of the five nor a property of
    [Object.prototype] is refused. *)
Lemma os_key_refused (key : string) (w : World) :
  (key =? "") = false ->
  getProperty propertyAccessors key = None ->
  reportOperatingSystemProperty (Some key) w =
  (Thrown (Error ("Invalid OS property key: " ++ key)), w).
Proof.
  intros Hk H. unfold reportOperatingSystemProperty. simpl. rewrite Hk, H.
  reflexivity.
Qed.

Lemma os_key_refused_witness :
  reportOperatingSystemProperty (Some "--eol") sampleWorld =
  (Thrown (Error "Invalid OS property key: --eol"), sampleWorld).
Proof. exact (os_key_refused "--eol" sampleWorld eq_refl eq_refl). Defined.

(** C2, at the argument [toString]: it is none of the five keys, but
    the lookup in the accessor object finds the inherited method, which
    is called and returns; [os toString] fails with no error and prints
    nothing.  (Without a key the handler does throw the error of its
    argument check.) *)
Theorem os_toString_not_refused (w : World) :
  ownProperty propertyAccessors "toString" = None /\
  reportOperatingSystemProperty (Some "toString") w = (Returned tt, w) /\
  dispatch "os" ["toString"] w = (Returned tt, w) /\
  reportOperatingSystemProperty None w =
  (Thrown (Error "OS property key not specified."), w).
Proof. repeat split; reflexivity. Qed.

(** ** [ls] *)

(** C6, in a directory that holds the special nodes [a] and [B] and
    the regular file [F].  [readdir] reports them by code unit: [B],
    [F], [a].  The comparison function answers 1 for [F] against [B]
    and for [a] against [F], so the three already form an ascending
    run for the sort and the table is printed as read: [B] stands
    before [a] within the type [Other], and names are never compared.
    The table has the order C6 asks for only where the comparison of
    names does not put [B] after [a]; a case-aware one does. *)
Theorem ls_mixed_types_not_ordered (h : Host) :
  fst (readDirectoryEntries "/mixed" (mixedWorld h)) =
  Returned [("B", IsNeither); ("F", IsFile); ("a", IsNeither)] /\
  compareEntries h {| Name := "F"; Type_ := "File" |}
                   {| Name := "B"; Type_ := "Other" |} = 1%Z /\
  compareEntries h {| Name := "a"; Type_ := "Other" |}
                   {| Name := "F"; Type_ := "File" |} = 1%Z /\
  enumerateDirectoryContents (mixedWorld h) =
  (Returned tt,
   withOutput
     (ConsoleTable [ {| Name := "B"; Type_ := "Other" |};
                     {| Name := "F"; Type_ := "File" |};
                     {| Name := "a"; Type_ := "Other" |} ])
     (withCall (CallReaddir "/mixed") (mixedWorld h))) /\
  listedAsClaimed (localeCompare h)
    [ {| Name := "B"; Type_ := "Other" |};
      {| Name := "F"; Type_ := "File" |};
      {| Name := "a"; Type_ := "Other" |} ] =
  (localeCompare h "B" "a" <=? 0)%Z /\
  caseAwareCompare "B" "a" = 1%Z /\
  listedAsClaimed caseAwareCompare
    [ {| Name := "B"; Type_ := "Other" |};
      {| Name := "F"; Type_ := "File" |};
      {| Name := "a"; Type_ := "Other" |} ] = false.
Proof.
  repeat split; try reflexivity.
  cbn. destruct (localeCompare h "B" "a" <=? 0)%Z; reflexivity.
Qed.

(** An empty directory gets the message and no table. *)
Lemma ls_empty_directory (w : World) :
  fs.lookup (path.components (cwd w)) (root w) = inr (Dir []) ->
  enumerateDirectoryContents w =
  (Returned tt,
   withOutput (ConsoleLog "This directory is empty.")
     (withCall (CallReaddir (cwd w)) w)).
Proof.
  intros H. unfold enumerateDirectoryContents, readDirectoryEntries, bind,
    getCurrentWorkingDirectory, ask, issue. simpl. rewrite H. reflexivity.
Qed.

Lemma ls_empty_directory_witness :
  enumerateDirectoryContents (withCwd "/tmp" sampleWorld) =
  (Returned tt,
   withOutput (ConsoleLog "This directory is empty.")
     (withCall (CallReaddir "/tmp") (withCwd "/tmp" sampleWorld))).
Proof. exact (ls_empty_directory (withCwd "/tmp" sampleWorld) eq_refl). Defined.

(** ** Running a handler step by step *)

Ltac unfold_monad :=
  unfold consoleLog, getCurrentWorkingDirectory, getUserHomeDirectory in *;
  unfold bind, ret, throw, tryCatch, ask, emit, issue, setRoot, setCwd in *.

Lemma lookup_error (p : list string) (n : node) (e : errno) :
  fs.lookup p n = inl e -> e = ENOENT \/ e = ENOTDIR.
Proof.
  revert n. induction p as [|name rest IH]; intros n H; simpl in H; [discriminate|].
  destruct n as [|es|]; try (inversion H; now right).
  destruct (fs.entry name es) as [child|]; [now apply IH in H|].
  inversion H. now left.
Qed.

(** ** [cd] *)

(** C4: [cd] without a path (or with an empty one) throws the error of
    the argument check, an InvalidArgument; [cd] to a path that names
    nothing throws the error of the metadata query, a NotFound; the
    query is the only filesystem call issued, and in both cases the
    working directory and the filesystem are as before. *)
Theorem cd_failure_keeps_directory (w : World) (destination : option string) :
  let target := path.resolve (cwd w) [cwd w; str destination] in
  (falsy destination = true ->
   navigateToSpecificDirectory destination w =
   (Thrown (Error "Directory path not specified."), w) /\
   kindOf (Error "Directory path not specified.") = InvalidArgument) /\
  (forall e,
     falsy destination = false ->
     fs.lookup (path.components target) (root w) = inl e ->
     navigateToSpecificDirectory destination w =
     (Thrown (SystemError e "stat" [target]), withCall (CallStat target) w) /\
     kindOf (SystemError e "stat" [target]) = NotFound /\
     cwd (withCall (CallStat target) w) = cwd w /\
     root (withCall (CallStat target) w) = root w).
Proof.
  intros target. split.
  - intros H. unfold navigateToSpecificDirectory. rewrite H. split; reflexivity.
  - intros e H Hl. unfold navigateToSpecificDirectory. rewrite H.
    unfold getItemMetadata. unfold_monad. simpl. fold target. rewrite Hl.
    repeat split.
    destruct (lookup_error _ _ _ Hl) as [-> | ->]; reflexivity.
Qed.

Lemma cd_failure_keeps_directory_witness :
  navigateToSpecificDirectory (Some "/nope") sampleWorld =
  (Thrown (SystemError ENOENT "stat" ["/nope"]),
   withCall (CallStat "/nope") sampleWorld) /\
  kindOf (SystemError ENOENT "stat" ["/nope"]) = NotFound /\
  cwd (withCall (CallStat "/nope") sampleWorld) = "/home/u" /\
  root (withCall (CallStat "/nope") sampleWorld) = sampleRoot.
Proof.
  apply (proj2 (cd_failure_keeps_directory sampleWorld (Some "/nope")) ENOENT);
    reflexivity.
Defined.

(** ** [add] *)

Lemma alter_absent (f : option node -> errno + option node)
  (parent : list string) (name : string) (n : node)
  (es : list (string * node)) (m : node) :
  fs.lookup parent n = inr (Dir es) ->
  fs.entry name es = None ->
  f None = inr (Some m) ->
  exists n', fs.alter f (parent ++ [name]) n = inr n'.
Proof.
  revert n. induction parent as [|x parent IH]; intros n Hl He Hf; simpl in Hl.
  - inversion Hl; subst. simpl. rewrite He, Hf. eauto.
  - destruct n as [|es'|]; try discriminate.
    destruct (fs.entry x es') as [child|] eqn:Ec; [|discriminate].
    destruct (IH child Hl He Hf) as [child' Hc].
    simpl. rewrite Ec.
    destruct (parent ++ [name])%list eqn:E; [now destruct parent|].
    rewrite Hc. eauto.
Qed.

(** C7: where the resolved path names a node, [add] throws the EEXIST
    of the exclusive open, an AlreadyExists, and the filesystem is the
    one before; where the path names nothing in an existing directory,
    [add] returns; and whenever [add] returns, the path named nothing
    before and names an empty regular file afterwards. *)
Theorem add_is_exclusive (w : World) (fileName : string) :
  (fileName =? "") = false ->
  let target := path.resolve (cwd w) [cwd w; fileName] in
  (forall m,
     fs.lookup (path.components target) (root w) = inr m ->
     generateNewEmptyFile (Some fileName) w =
     (Thrown (SystemError EEXIST "open" [target]),
      withCall (CallOpenExclusive target) w) /\
     kindOf (SystemError EEXIST "open" [target]) = AlreadyExists /\
     root (withCall (CallOpenExclusive target) w) = root w) /\
  (forall parent name es,
     path.components target = (parent ++ [name])%list ->
     fs.lookup parent (root w) = inr (Dir es) ->
     fs.entry name es = None ->
     exists w', generateNewEmptyFile (Some fileName) w = (Returned tt, w')) /\
  (forall w',
     generateNewEmptyFile (Some fileName) w = (Returned tt, w') ->
     fs.lookup (path.components target) (root w) = inl ENOENT /\
     fs.lookup (path.components target) (root w') = inr (File [])).
Proof.
  intros Hname target.
  unfold generateNewEmptyFile, createNewFileContent, falsy. rewrite Hname.
  unfold_monad. simpl. fold target.
  split; [|split].
  - intros m Hl. unfold fs.createExclusive.
    destruct (path.components target) as [|c cs] eqn:E; [repeat split|].
    rewrite (alter_refused _ (c :: cs) (root w) m EEXIST); try reflexivity;
      try congruence.
    repeat split.
  - intros parent name es Hc Hl He. unfold fs.createExclusive. rewrite Hc.
    destruct (alter_absent
                (fun old => match old with
                            | None => inr (Some (File []))
                            | Some _ => inl EEXIST
                            end) parent name (root w) es (File []) Hl He eq_refl)
      as [n' Hn'].
    destruct (parent ++ [name])%list eqn:E; [now destruct parent|].
    rewrite Hn'. eauto.
  - intros w'. unfold fs.createExclusive.
    destruct (path.components target) as [|c cs] eqn:E; [discriminate|].
    destruct (fs.alter _ (c :: cs) (root w)) as [e|r] eqn:Ea; [discriminate|].
    intros H. inversion H; subst; clear H. simpl.
    apply alter_inv in Ea as (old & new & Hf & Hold & Hnew).
    destruct old; [discriminate|]. inversion Hf; subst. split; assumption.
Qed.

Lemma add_is_exclusive_witness :
  (generateNewEmptyFile (Some "notes.txt") sampleWorld =
   (Thrown (SystemError EEXIST "open" ["/home/u/notes.txt"]),
    withCall (CallOpenExclusive "/home/u/notes.txt") sampleWorld) /\
   kindOf (SystemError EEXIST "open" ["/home/u/notes.txt"]) = AlreadyExists /\
   root (withCall (CallOpenExclusive "/home/u/notes.txt") sampleWorld) = sampleRoot) /\
  (exists w', generateNewEmptyFile (Some "test.txt") sampleWorld = (Returned tt, w')).
Proof.
  split.
  - apply (proj1 (add_is_exclusive sampleWorld "notes.txt" eq_refl)
             (File [x68; x69]%byte)).
    reflexivity.
  - apply (proj1 (proj2 (add_is_exclusive sampleWorld "test.txt" eq_refl))
             ["home"; "u"] "test.txt"
             [("projects", Dir []); ("notes.txt", File [x68; x69]%byte);
              ("sock", Other); ("d", Dir [])]);
      reflexivity.
Defined.

(** ** [cp] and [mv]: the checks before the streams *)

(** C5 as stated fails on [cp d .] in the home directory of the sample
    machine: the source resolves to the directory [/home/u/d], the
    destination resolves to the same path, and the error is the one of
    the identical-paths check, an InvalidArgument. *)
Lemma cp_directory_onto_itself :
  fs.lookup (path.components (path.resolve "/home/u" ["/home/u"; "d"])) sampleRoot =
  inr (Dir []) /\
  transferResourceViaStream (Some "d") (Some ".") false sampleWorld =
  (Thrown (Error "Source and destination paths are identical."), sampleWorld) /\
  kindOf (Error "Source and destination paths are identical.") <> UnsupportedOperation.
Proof. repeat split. discriminate. Qed.

(** C5, amended: with both arguments given and a source that resolves
    to a directory, [cp] and [mv] alike throw the error of the directory
    check, an UnsupportedOperation, after the metadata query and nothing
    else, when the resolved source and destination differ; when they are
    the same path, both throw the error of the identical-paths check, an
    InvalidArgument, before the source is looked at. *)
Theorem transfer_directory_source (w : World) (source destinationContainer : string)
  (isMoveOperation : bool) (es : list (string * node)) :
  (source =? "") = false ->
  (destinationContainer =? "") = false ->
  let s := path.resolve (cwd w) [cwd w; source] in
  let d := path.resolve (cwd w) [cwd w; destinationContainer; path.basename s] in
  let verb := if isMoveOperation then "move" else "copy" in
  fs.lookup (path.components s) (root w) = inr (Dir es) ->
  ((s =? d) = false ->
   transferResourceViaStream (Some source) (Some destinationContainer)
     isMoveOperation w =
   (Thrown (Error ("Cannot " ++ verb ++ " a directory with this command.")),
    withCall (CallStat s) w) /\
   kindOf (Error ("Cannot " ++ verb ++ " a directory with this command.")) =
   UnsupportedOperation) /\
  ((s =? d) = true ->
   transferResourceViaStream (Some source) (Some destinationContainer)
     isMoveOperation w =
   (Thrown (Error "Source and destination paths are identical."), w) /\
   kindOf (Error "Source and destination paths are identical.") = InvalidArgument).
Proof.
  intros Hs Hd s d verb Hl.
  unfold transferResourceViaStream, falsy. rewrite Hs, Hd.
  unfold getItemMetadata. unfold_monad. simpl. fold s. fold d.
  split; intros E; rewrite E.
  - rewrite Hl. split; [reflexivity|]. destruct isMoveOperation; reflexivity.
  - split; reflexivity.
Qed.

Lemma transfer_directory_source_witness :
  (transferResourceViaStream (Some "d") (Some "projects") true sampleWorld =
   (Thrown (Error "Cannot move a directory with this command."),
    withCall (CallStat "/home/u/d") sampleWorld) /\
   kindOf (Error "Cannot move a directory with this command.") = UnsupportedOperation) /\
  (transferResourceViaStream (Some "d") (Some ".") true sampleWorld =
   (Thrown (Error "Source and destination paths are identical."), sampleWorld) /\
   kindOf (Error "Source and destination paths are identical.") = InvalidArgument).
Proof.
  split.
  - apply (proj1 (transfer_directory_source sampleWorld "d" "projects" true []
                    eq_refl eq_refl eq_refl)).
    reflexivity.
  - apply (proj2 (transfer_directory_source sampleWorld "d" "." true []
                    eq_refl eq_refl eq_refl)).
    reflexivity.
Defined.

Ltac world_step :=
  cbn [root cwd withCall withRoot withOutput console calls host].

Tactic Notation "world_step" "in" hyp(H) :=
  cbn [root cwd withCall withRoot withOutput console calls host] in H.

(** Case analysis on the innermost scrutinee of the run [H], reusing
    what is already known of it. *)
Ltac split_matches H :=
  repeat match type of H with
         | context [match ?x with _ => _ end] =>
             lazymatch x with
             | context [match _ with _ => _ end] => fail
             | _ =>
                 first [ match goal with E : x = _ |- _ => rewrite E in H end
                       | destruct x eqn:? ];
                 simpl in H
             end
         end.

(** C10: when [cp] or [mv] throws the error of the missing-argument
    check, of the identical-paths check or of the directory check, the
    filesystem, the working directory and the console are as before,
    and the only filesystem call that may have been issued is the
    metadata query: no stream was opened. *)
Theorem transfer_checks_before_streams (w w' : World)
  (source destinationContainer : option string) (isMoveOperation : bool)
  (e : error) :
  transferResourceViaStream source destinationContainer isMoveOperation w =
  (Thrown e, w') ->
  In e [ Error "Source or destination not specified.";
         Error "Source and destination paths are identical.";
         Error "Cannot move a directory with this command.";
         Error "Cannot copy a directory with this command." ] ->
  root w' = root w /\ cwd w' = cwd w /\ console w' = console w /\
  (calls w' = calls w \/ exists p, calls w' = (calls w ++ [CallStat p])%list) /\
  existsb isStreamOpen (calls w') = existsb isStreamOpen (calls w).
Proof.
  intros H He.
  assert (Hgoal :
    root w' = root w /\ cwd w' = cwd w /\ console w' = console w /\
    (calls w' = calls w \/ exists p, calls w' = (calls w ++ [CallStat p])%list)).
  { unfold transferResourceViaStream, pipeStreams, getItemMetadata,
      establishReadFlow, establishWriteFlow, readAll, writeAll,
      removeItemFromSystem in H.
    unfold_monad. simpl in H.
    destruct isMoveOperation; split_matches H;
      inversion H; subst; clear H; simpl;
      try (repeat split; (now left) || (right; eauto); fail);
      simpl in He; repeat (destruct He as [He|He]; try discriminate He);
      try contradiction. }
  destruct Hgoal as (Hr & Hc & Ho & Hcalls). repeat split; try assumption.
  destruct Hcalls as [->|[p ->]]; [reflexivity|].
  rewrite existsb_app. simpl. now rewrite !orb_false_r.
Qed.

Lemma transfer_checks_before_streams_witness :
  root (withCall (CallStat "/home/u/d") sampleWorld) = root sampleWorld /\
  cwd (withCall (CallStat "/home/u/d") sampleWorld) = cwd sampleWorld /\
  console (withCall (CallStat "/home/u/d") sampleWorld) = console sampleWorld /\
  (calls (withCall (CallStat "/home/u/d") sampleWorld) = calls sampleWorld \/
   exists p, calls (withCall (CallStat "/home/u/d") sampleWorld) =
             (calls sampleWorld ++ [CallStat p])%list) /\
  existsb isStreamOpen (calls (withCall (CallStat "/home/u/d") sampleWorld)) =
  existsb isStreamOpen (calls sampleWorld).
Proof.
  apply (transfer_checks_before_streams sampleWorld
           (withCall (CallStat "/home/u/d") sampleWorld)
           (Some "d") (Some "projects") true
           (Error "Cannot move a directory with this command.")).
  - reflexivity.
  - simpl. auto.
Defined.

(** ** [cp] and [mv]: the copy and the deletion *)

Section TransferFacts.

Import fs.

Lemma openTruncate_frame (p q : list string) (n n' : node) (content : list byte) :
  openTruncate p n = inr n' -> lookup q n = inr (File content) -> q <> p ->
  lookup q n' = inr (File content).
Proof.
  unfold openTruncate. destruct p as [|c cs]; [discriminate|].
  apply alter_frame_file. intros es new. discriminate.
Qed.

Lemma store_frame (c : list byte) (p q : list string) (n n' : node)
  (content : list byte) :
  store c p n = inr n' -> lookup q n = inr (File content) -> q <> p ->
  lookup q n' = inr (File content).
Proof.
  unfold store. destruct p as [|x xs]; [discriminate|].
  apply alter_frame_file. intros es new. discriminate.
Qed.

Lemma unlink_frame (p q : list string) (n n' : node) (content : list byte) :
  unlink p n = inr n' -> lookup q n = inr (File content) -> q <> p ->
  lookup q n' = inr (File content).
Proof.
  unfold unlink. destruct p as [|x xs]; [discriminate|].
  apply alter_frame_file. intros es new. discriminate.
Qed.

Lemma store_lookup (c : list byte) (p : list string) (n n' : node) :
  store c p n = inr n' -> lookup p n' = inr (File c).
Proof.
  unfold store. destruct p as [|x xs]; [discriminate|]. intros H.
  apply alter_inv in H as (old & new & Hf & _ & Hnew).
  destruct old as [[| |]|]; inversion Hf; subst. assumption.
Qed.

Lemma unlink_lookup (p : list string) (n n' : node) :
  unlink p n = inr n' -> lookup p n' = inl ENOENT.
Proof.
  unfold unlink. destruct p as [|x xs]; [discriminate|]. intros H.
  apply alter_inv in H as (old & new & Hf & _ & Hnew).
  destruct old as [[| |]|]; inversion Hf; subst; assumption.
Qed.

End TransferFacts.

(** The world after a copy, and after the deletion that makes it a
    move. *)
Lemma transfer_file_run (w : World) (source destinationContainer : string)
  (isMoveOperation : bool) (content : list byte) :
  path.isAbsolute (cwd w) = true ->
  (source =? "") = false ->
  (destinationContainer =? "") = false ->
  let s := path.resolve (cwd w) [cwd w; source] in
  let d := path.resolve (cwd w) [cwd w; destinationContainer; path.basename s] in
  (s =? d) = false ->
  fs.lookup (path.components s) (root w) = inr (File content) ->
  forall r1 r2,
    fs.openTruncate (path.components d) (root w) = inr r1 ->
    fs.store content (path.components d) r1 = inr r2 ->
    transferResourceViaStream (Some source) (Some destinationContainer)
      isMoveOperation w =
    let target := path.join [destinationContainer; path.basename s] in
    let copied :=
      {| host := host w; root := r2; cwd := cwd w; console := console w;
         calls := (calls w ++ [CallStat s; CallOpenRead s; CallOpenWrite d])%list |} in
    if isMoveOperation then
      match fs.unlink (path.components s) r2 with
      | inr r3 =>
          (Returned tt,
           withOutput
             (ConsoleLog ("Moved " ++ quoted source ++ " to " ++ quoted target ++ "."))
             (withRoot r3 (withCall (CallUnlink s) copied)))
      | inl e =>
          (Thrown (SystemError e "unlink" [s]), withCall (CallUnlink s) copied)
      end
    else
      (Returned tt,
       withOutput
         (ConsoleLog ("Copied " ++ quoted source ++ " to " ++ quoted target ++ "."))
         copied).
Proof.
  intros Habs Hs Hd s d Hne Hl r1 r2 Ho Hst.
  assert (Hsd : path.components s <> path.components d).
  { intros E. apply (resolve_components_inj _ _ _ Habs) in E.
    fold s d in E. rewrite E, String.eqb_refl in Hne. discriminate. }
  pose proof (openTruncate_frame _ _ _ _ _ Ho Hl Hsd) as Hl1.
  unfold transferResourceViaStream, falsy. rewrite Hs, Hd.
  unfold pipeStreams, getItemMetadata, establishReadFlow, establishWriteFlow,
    readAll, writeAll, removeItemFromSystem.
  unfold_monad. cbn [orb str]. fold s. fold d. rewrite Hne.
  world_step. rewrite Hl. world_step. rewrite Hl. world_step.
  rewrite Ho. world_step. unfold fs.read. rewrite Hl1. world_step.
  rewrite Hst. world_step.
  cbv zeta. unfold withCall, withRoot, withOutput. world_step.
  destruct isMoveOperation; world_step;
    [destruct (fs.unlink (path.components s) r2)|];
    world_step; rewrite <- ?app_assoc; reflexivity.
Qed.

(** What a returning [cp] or [mv] went through. *)
Lemma transfer_returns_inv (w w' : World) (source destinationContainer : string)
  (isMoveOperation : bool) :
  transferResourceViaStream (Some source) (Some destinationContainer)
    isMoveOperation w = (Returned tt, w') ->
  let s := path.resolve (cwd w) [cwd w; source] in
  let d := path.resolve (cwd w) [cwd w; destinationContainer; path.basename s] in
  (source =? "") = false /\ (destinationContainer =? "") = false /\
  (s =? d) = false /\
  exists content content' r1 r2,
    fs.lookup (path.components s) (root w) = inr (File content) /\
    fs.openTruncate (path.components d) (root w) = inr r1 /\
    fs.read (path.components s) r1 = inr content' /\
    fs.store content' (path.components d) r1 = inr r2.
Proof.
  intros H s d.
  unfold transferResourceViaStream, pipeStreams, getItemMetadata,
    establishReadFlow, establishWriteFlow, readAll, writeAll,
    removeItemFromSystem, falsy in H.
  unfold_monad. cbn [str] in H.
  destruct (source =? "") eqn:Es; cbn [orb] in H; [discriminate|].
  destruct (destinationContainer =? "") eqn:Ed; cbn [orb] in H; [discriminate|].
  fold s in H. fold d in H.
  destruct (s =? d) eqn:Esd; [discriminate|].
  repeat split.
  world_step in H.
  destruct (fs.lookup (path.components s) (root w)) as [e|[content|es|]] eqn:El;
    world_step in H; try discriminate; rewrite El in H; world_step in H.
  - destruct (fs.openTruncate (path.components d) (root w)) as [e|r1] eqn:Eo;
      world_step in H; [destruct isMoveOperation; discriminate|].
    destruct (fs.read (path.components s) r1) as [e|content'] eqn:Er;
      world_step in H; [destruct isMoveOperation; discriminate|].
    destruct (fs.store content' (path.components d) r1) as [e|r2] eqn:Est;
      world_step in H; [destruct isMoveOperation; discriminate|].
    exists content, content', r1, r2. repeat split; assumption.
  - destruct (fs.openTruncate (path.components d) (root w)) as [e|r1] eqn:Eo;
      world_step in H; destruct isMoveOperation; discriminate.
Qed.

(** C3, at [mv notes.txt here] in the home directory, where [here] is
    a symbolic link that holds [.].  The two resolved paths differ as
    strings, so the check for identical paths passes, and both lead to
    the one file [/home/u/notes.txt].  The write stream empties that
    file when it opens, the copy writes what is left of it, nothing,
    and the unlink removes it: [mv] returns and reports the move, and
    afterwards neither [D/basename(F)] nor [F] names anything.  The
    two bytes of the file are lost.  ([cp] through the same link returns
    too, and leaves the source empty.) *)
Theorem mv_through_link_loses_file :
  path.resolve "/home/u" ["/home/u"; "notes.txt"] = "/home/u/notes.txt" /\
  path.resolve "/home/u" ["/home/u"; "here"; path.basename "/home/u/notes.txt"] =
  "/home/u/here/notes.txt" /\
  ("/home/u/notes.txt" =? "/home/u/here/notes.txt") = false /\
  linked.through linkedWorld "/home/u/notes.txt" fs.lookup =
  inr (File [x68; x69]%byte) /\
  linked.physical linkedWorld "/home/u/here/notes.txt" =
  linked.physical linkedWorld "/home/u/notes.txt" /\
  fst (linked.transferResourceViaStream (Some "notes.txt") (Some "here") true
         linkedWorld) = Returned tt /\
  console (linked.plain
             (snd (linked.transferResourceViaStream (Some "notes.txt")
                     (Some "here") true linkedWorld))) =
  [ConsoleLog ("Moved " ++ quoted "notes.txt" ++ " to " ++
               quoted "here/notes.txt" ++ ".")] /\
  calls (linked.plain
           (snd (linked.transferResourceViaStream (Some "notes.txt")
                   (Some "here") true linkedWorld))) =
  [ CallStat "/home/u/notes.txt"; CallOpenRead "/home/u/notes.txt";
    CallOpenWrite "/home/u/here/notes.txt"; CallUnlink "/home/u/notes.txt" ] /\
  linked.through
    (snd (linked.transferResourceViaStream (Some "notes.txt") (Some "here") true
            linkedWorld))
    "/home/u/here/notes.txt" fs.lookup = inl ENOENT /\
  linked.through
    (snd (linked.transferResourceViaStream (Some "notes.txt") (Some "here") true
            linkedWorld))
    "/home/u/notes.txt" fs.lookup = inl ENOENT /\
  fst (linked.transferResourceViaStream (Some "notes.txt") (Some "here") false
         linkedWorld) = Returned tt /\
  linked.through
    (snd (linked.transferResourceViaStream (Some "notes.txt") (Some "here") false
            linkedWorld))
    "/home/u/notes.txt" fs.lookup = inr (File []).
Proof. repeat split; vm_compute; reflexivity. Qed.

(** ** [up] *)

Section UpFacts.

Import path.

Lemma render_not_empty (cs : list string) : (render cs =? "") = false.
Proof. reflexivity. Qed.

Lemma render_absolute (cs : list string) : isAbsolute (render cs) = true.
Proof. reflexivity. Qed.

Lemma normalize_after_render (cs extra : list string) :
  Forall (fun c => cleanSegment c = true) cs ->
  normalizeSegments false [] (segments (render cs) ++ extra) =
  normalizeSegments false (rev cs) extra.
Proof.
  intros H. rewrite normalizeSegments_app.
  fold (components (render cs)). now rewrite components_render.
Qed.

(** Resolving a rendered path gives it back. *)
Lemma resolve_rendered (here : string) (cs : list string) :
  Forall (fun c => cleanSegment c = true) cs ->
  resolve here [render cs] = render cs.
Proof.
  intros H. unfold resolve. cbn [rev app resolveLoop].
  rewrite render_not_empty, render_absolute. cbn [negb].
  rewrite segments_app_slash.
  rewrite normalize_after_render by assumption.
  simpl. now rewrite rev_involutive.
Qed.

(** Resolving [..] in a rendered working directory drops its last
    component; the root stays the root. *)
Lemma resolve_parent (cs : list string) :
  Forall (fun c => cleanSegment c = true) cs ->
  resolve (render cs) [".."] = render (removelast cs).
Proof.
  intros H. unfold resolve. cbn [rev app resolveLoop].
  change (".." =? "") with false. cbn [isAbsolute].
  change (isSlash ".") with false. cbv iota.
  rewrite render_not_empty, render_absolute. cbn [negb].
  rewrite segments_app_slash.
  rewrite normalize_after_render by assumption.
  destruct (rev cs) as [|top below] eqn:E.
  - apply (f_equal (@rev string)) in E. rewrite rev_involutive in E. subst cs.
    reflexivity.
  - apply (f_equal (@rev string)) in E. rewrite rev_involutive in E.
    simpl in E. subst cs.
    apply Forall_app in H as [_ Htop]. inversion Htop as [|? ? Hc _]; subst.
    apply cleanSegment_inv in Hc as (_ & _ & _ & Hdd).
    simpl. rewrite Hdd. now rewrite removelast_last.
Qed.

End UpFacts.

(** C8 as stated fails on the session [cd ..], [up] started in the home
    directory [/home/u] of the sample machine: [cd] has no boundary, so
    the first line leads to [/home]; there the resolved working
    directory differs from the home directory, and [up] leads to [/],
    a proper ancestor of the home directory. *)
Lemma up_above_home_ascends :
  cwd sampleWorld = homedir (host sampleWorld) /\
  cwd (snd (session ["cd .."] sampleWorld)) = "/home" /\
  fst (session ["cd .."; "up"] sampleWorld) = Returned tt /\
  cwd (snd (session ["cd .."; "up"] sampleWorld)) = "/" /\
  fs.isPrefix (path.components "/") (path.components "/home/u") = true /\
  path.components "/" <> path.components "/home/u".
Proof. repeat split. discriminate. Qed.

(** C8, amended: in a working directory that is a normalised absolute
    path naming a directory, [up] compares the resolved working
    directory with the resolved home directory.  Where they are equal
    it prints the message and the world is otherwise as before; where
    they differ the working directory becomes the parent (the path
    without its last component) and nothing is printed.  So from a
    working directory at or below the home directory, [up] leads to a
    working directory at or below the home directory. *)
Theorem up_stops_at_home (w : World) (cs : list string)
  (es : list (string * node)) :
  Forall (fun c => cleanSegment c = true) cs ->
  cwd w = render cs ->
  fs.lookup cs (root w) = inr (Dir es) ->
  let atHome :=
    path.resolve (cwd w) [cwd w] =? path.resolve (cwd w) [homedir (host w)] in
  (atHome = true ->
   navigateUpward w =
   (Returned tt,
    withOutput
      (ConsoleLog "Already at the root user directory. Cannot go further up.") w)) /\
  (atHome = false ->
   navigateUpward w =
   (Returned tt,
    withCwd (render (removelast cs))
      (withCall (CallChdir (render (removelast cs))) w))) /\
  (forall hs rest,
     homedir (host w) = render hs -> cs = (hs ++ rest)%list ->
     exists rest', cwd (snd (navigateUpward w)) = render (hs ++ rest')).
Proof.
  intros Hclean Hcwd Hdir atHome.
  assert (Hparent : exists es', fs.lookup (removelast cs) (root w) = inr (Dir es')).
  { destruct cs as [|c cs'] using rev_ind; [simpl; eauto|].
    rewrite removelast_last. eapply lookup_parent. eassumption. }
  destruct Hparent as [es' Hparent].
  assert (Hclean' : Forall (fun c => cleanSegment c = true) (removelast cs)).
  { destruct cs as [|c cs'] using rev_ind; [constructor|].
    rewrite removelast_last. now apply Forall_app in Hclean as [? _]. }
  assert (Hstay : atHome = true ->
                  navigateUpward w =
                  (Returned tt,
                   withOutput
                     (ConsoleLog
                        "Already at the root user directory. Cannot go further up.")
                     w)).
  { intros E. unfold navigateUpward. unfold_monad. fold atHome. now rewrite E. }
  assert (Hmove : atHome = false ->
                  navigateUpward w =
                  (Returned tt,
                   withCwd (render (removelast cs))
                     (withCall (CallChdir (render (removelast cs))) w))).
  { intros E. unfold navigateUpward, changeCurrentDirectory. unfold_monad.
    fold atHome. rewrite E. cbn [negb]. world_step.
    rewrite Hcwd, (resolve_parent cs Hclean).
    rewrite (components_render _ Hclean'), Hparent. reflexivity. }
  split; [exact Hstay|]. split; [exact Hmove|].
  intros hs rest Hhome Hcs.
  assert (Hhs : Forall (fun c => cleanSegment c = true) hs)
    by (subst cs; now apply Forall_app in Hclean as [? _]).
  destruct atHome eqn:E.
  - rewrite (Hstay eq_refl). exists rest. simpl. now rewrite Hcwd, Hcs.
  - rewrite (Hmove eq_refl). simpl.
    destruct rest as [|r rest'] using rev_ind.
    + exfalso. unfold atHome in E. rewrite app_nil_r in Hcs. subst hs.
      rewrite Hhome, Hcwd, String.eqb_refl in E. discriminate.
    + exists rest'. subst cs. now rewrite app_assoc, removelast_last.
Qed.

Lemma up_stops_at_home_witness :
  (navigateUpward sampleWorld =
   (Returned tt,
    withOutput
      (ConsoleLog "Already at the root user directory. Cannot go further up.")
      sampleWorld)) /\
  (navigateUpward (withCwd "/home/u/projects" sampleWorld) =
   (Returned tt,
    withCwd "/home/u"
      (withCall (CallChdir "/home/u") (withCwd "/home/u/projects" sampleWorld)))) /\
  (exists rest',
     cwd (snd (navigateUpward (withCwd "/home/u/projects" sampleWorld))) =
     render (["home"; "u"] ++ rest')).
Proof.
  split; [|split].
  - apply (proj1 (up_stops_at_home sampleWorld ["home"; "u"]
                    [("projects", Dir []); ("notes.txt", File [x68; x69]%byte);
                     ("sock", Other); ("d", Dir [])]
                    ltac:(repeat constructor) eq_refl eq_refl)).
    reflexivity.
  - apply (proj1 (proj2 (up_stops_at_home (withCwd "/home/u/projects" sampleWorld)
                           ["home"; "u"; "projects"] []
                           ltac:(repeat constructor) eq_refl eq_refl))).
    reflexivity.
  - apply (proj2 (proj2 (up_stops_at_home (withCwd "/home/u/projects" sampleWorld)
                           ["home"; "u"; "projects"] []
                           ltac:(repeat constructor) eq_refl eq_refl))
             ["home"; "u"] ["projects"]); reflexivity.
Defined.

(** ** Extra arguments *)

(** C9: a registered function called with a list of tokens behaves as
    when it is called with the first tokens only, as many as it has
    parameters; so does the whole lookup-and-call of the line
    callback. *)
Theorem extra_arguments_ignored (name : string) (f : handler)
  (args : list string) :
  ownProperty commandRegistry name = Some f ->
  f args = f (firstn (arity name) args) /\
  dispatch name args = dispatch name (firstn (arity name) args).
Proof.
  intros H.
  assert (Hf : f args = f (firstn (arity name) args)).
  { unfold commandRegistry in H. cbn [ownProperty] in H.
    repeat match type of H with
           | (if ?k =? name then _ else _) = _ =>
               destruct (String.eqb_spec k name) as [<-|_];
               [injection H as <-;
                let n := eval vm_compute in (arity k) in change (arity k) with n;
                destruct args as [|a [|b args']]; reflexivity|]
           end.
    discriminate. }
  split; [exact Hf|].
  unfold dispatch, getProperty. rewrite H, Hf. reflexivity.
Qed.

Lemma extra_arguments_ignored_witness :
  (fun args => navigateToSpecificDirectory (arg 0 args)) ["a"; "b"] =
  (fun args => navigateToSpecificDirectory (arg 0 args)) (firstn (arity "cd") ["a"; "b"]) /\
  dispatch "cd" ["a"; "b"] = dispatch "cd" (firstn (arity "cd") ["a"; "b"]).
Proof.
  exact (extra_arguments_ignored "cd"
           (fun args => navigateToSpecificDirectory (arg 0 args)) ["a"; "b"] eq_refl).
Defined.

(** The two lines of the claim, on any world. *)
Lemma extra_arguments_ignored_lines (w : World) :
  onLine "cd a b" w = onLine "cd a" w /\ onLine "up x" w = onLine "up" w.
Proof. split; reflexivity. Qed.

(* ================================================================== *)
(** * Part III: the rest of the program *)
(* ================================================================== *)

(** ** What a computation keeps *)

Section Frames.

Variable R : World -> World -> Prop.
Hypothesis HR : frame R.

Lemma keeps_ret {A} (a : A) : keeps R (ret a).
Proof. intros w. apply (frame_refl R HR). Qed.

Lemma keeps_throw {A} (e : error) : keeps R (@throw A e).
Proof. intros w. apply (frame_refl R HR). Qed.

Lemma keeps_processExit {A} (code : Z) : keeps R (@processExit A code).
Proof. intros w. apply (frame_refl R HR). Qed.

Lemma keeps_ask : keeps R ask.
Proof. intros w. apply (frame_refl R HR). Qed.

Lemma keeps_emit (o : output) : keeps R (emit o).
Proof. intros w. apply (frame_output R HR). Qed.

Lemma keeps_issue (c : call) : keeps R (issue c).
Proof. intros w. apply (frame_call R HR). Qed.

Lemma keeps_emitAll (os : list output) : keeps R (emitAll os).
Proof.
  induction os as [|o os IH]; intros w; simpl.
  - apply (frame_refl R HR).
  - unfold bind, emit. simpl.
    eapply (frame_trans R HR); [apply (frame_output R HR o)|apply IH].
Qed.

Lemma keeps_bind {A B} (m : M A) (k : A -> M B) :
  keeps R m -> (forall a, keeps R (k a)) -> keeps R (bind m k).
Proof.
  intros Hm Hk w. unfold bind. specialize (Hm w).
  destruct (m w) as [[a|e|c] w1]; simpl in *; try assumption.
  eapply (frame_trans R HR); [exact Hm|apply Hk].
Qed.

Lemma keeps_tryCatch (m : M unit) (handler : error -> M unit) :
  keeps R m -> (forall e, keeps R (handler e)) -> keeps R (tryCatch m handler).
Proof.
  intros Hm Hh w. unfold tryCatch. specialize (Hm w).
  destruct (m w) as [[a|e|c] w1]; simpl in *; try assumption.
  eapply (frame_trans R HR); [exact Hm|apply Hh].
Qed.

End Frames.

Lemma frame_sameDirectory : frame sameDirectory.
Proof.
  split; unfold sameDirectory; simpl; try tauto.
  intros w1 w2 w3 [H1 H2] [H3 H4]. split; congruence.
Qed.

Lemma frame_sameFiles : frame sameFiles.
Proof.
  split; unfold sameFiles; simpl; try tauto.
  intros w1 w2 w3 H1 H2. congruence.
Qed.

Lemma keeps_setRoot (r : node) : keeps sameDirectory (setRoot r).
Proof. intros w. split; reflexivity. Qed.

Lemma keeps_setCwd (d : string) : keeps sameFiles (setCwd d).
Proof. intros w. reflexivity. Qed.

Lemma neverExits_ret {A} (a : A) : neverExits (ret a).
Proof. intros w c. discriminate. Qed.

Lemma neverExits_throw {A} (e : error) : neverExits (@throw A e).
Proof. intros w c. discriminate. Qed.

Lemma neverExits_ask : neverExits ask.
Proof. intros w c. discriminate. Qed.

Lemma neverExits_emit (o : output) : neverExits (emit o).
Proof. intros w c. discriminate. Qed.

Lemma neverExits_issue (c : call) : neverExits (issue c).
Proof. intros w code. discriminate. Qed.

Lemma neverExits_emitAll (os : list output) : neverExits (emitAll os).
Proof.
  induction os as [|o os IH]; intros w code; simpl.
  - discriminate.
  - unfold bind, emit. simpl. apply IH.
Qed.

Lemma neverExits_setRoot (r : node) : neverExits (setRoot r).
Proof. intros w c. discriminate. Qed.

Lemma neverExits_setCwd (d : string) : neverExits (setCwd d).
Proof. intros w c. discriminate. Qed.

Lemma neverExits_bind {A B} (m : M A) (k : A -> M B) :
  neverExits m -> (forall a, neverExits (k a)) -> neverExits (bind m k).
Proof.
  intros Hm Hk w c. unfold bind. specialize (Hm w).
  destruct (m w) as [[a|e|c'] w1]; simpl in *.
  - apply Hk.
  - discriminate.
  - exfalso. now apply (Hm c').
Qed.

Lemma neverExits_tryCatch (m : M unit) (handler : error -> M unit) :
  neverExits m -> (forall e, neverExits (handler e)) ->
  neverExits (tryCatch m handler).
Proof.
  intros Hm Hh w c. unfold tryCatch. specialize (Hm w).
  destruct (m w) as [[a|e|c'] w1]; simpl in *.
  - discriminate.
  - apply Hh.
  - exfalso. now apply (Hm c').
Qed.

Lemma neverExits_getCurrentWorkingDirectory : neverExits getCurrentWorkingDirectory.
Proof. intros w c. discriminate. Qed.

Lemma neverExits_getUserHomeDirectory : neverExits getUserHomeDirectory.
Proof. intros w c. discriminate. Qed.

Lemma keeps_getCurrentWorkingDirectory (R : World -> World -> Prop) :
  frame R -> keeps R getCurrentWorkingDirectory.
Proof. intros HR w. apply (frame_refl R HR). Qed.

Lemma keeps_getUserHomeDirectory (R : World -> World -> Prop) :
  frame R -> keeps R getUserHomeDirectory.
Proof. intros HR w. apply (frame_refl R HR). Qed.

Create HintDb effects.

#[local] Hint Resolve neverExits_getCurrentWorkingDirectory
  neverExits_getUserHomeDirectory keeps_getCurrentWorkingDirectory
  keeps_getUserHomeDirectory : effects.

#[local] Hint Resolve frame_sameDirectory frame_sameFiles : effects.
#[local] Hint Resolve keeps_ret keeps_throw keeps_processExit keeps_ask
  keeps_emit keeps_issue keeps_emitAll keeps_setRoot keeps_setCwd : effects.
#[local] Hint Resolve neverExits_ret neverExits_throw neverExits_ask
  neverExits_emit neverExits_issue neverExits_emitAll neverExits_setRoot
  neverExits_setCwd : effects.

Ltac head_of t :=
  lazymatch t with
  | ?f _ => head_of f
  | _ => t
  end.

(** One step through the structure of a computation: a primitive is
    closed from the hints, a sequence or a [try] is split, a branch is
    taken apart, and a function of the program is unfolded. *)
Ltac effects_step :=
  match goal with
  | |- _ => solve [auto with effects]
  | |- keeps _ (bind _ _) =>
      apply keeps_bind; [auto with effects| |intros]
  | |- keeps _ (tryCatch _ _) =>
      apply keeps_tryCatch; [auto with effects| |intros]
  | |- neverExits (bind _ _) => apply neverExits_bind; [|intros]
  | |- neverExits (tryCatch _ _) => apply neverExits_tryCatch; [|intros]
  | |- context [if ?b then _ else _] => destruct b
  | |- context [match ?x with _ => _ end] => destruct x
  | |- keeps _ ?m => let h := head_of m in unfold h
  | |- neverExits ?m => let h := head_of m in unfold h
  end.

Ltac effects := repeat effects_step.

(** ** Which handlers touch what *)

Lemma displayCurrentPath_effects :
  keeps sameDirectory displayCurrentPath /\ keeps sameFiles displayCurrentPath /\
  neverExits displayCurrentPath.
Proof. split; [|split]; effects. Qed.

Lemma enumerateDirectoryContents_effects :
  keeps sameDirectory enumerateDirectoryContents /\
  keeps sameFiles enumerateDirectoryContents /\
  neverExits enumerateDirectoryContents.
Proof. split; [|split]; effects. Qed.

Lemma navigation_effects (destination : option string) :
  keeps sameFiles navigateUpward /\ neverExits navigateUpward /\
  keeps sameFiles (navigateToSpecificDirectory destination) /\
  neverExits (navigateToSpecificDirectory destination).
Proof. split; [|split; [|split]]; effects. Qed.

Lemma streamResourceContentToConsole_effects (resourcePath : option string) :
  keeps sameDirectory (streamResourceContentToConsole resourcePath) /\
  keeps sameFiles (streamResourceContentToConsole resourcePath) /\
  neverExits (streamResourceContentToConsole resourcePath).
Proof. split; [|split]; effects. Qed.

Lemma generateResourceChecksum_effects (resourcePath : option string) :
  keeps sameDirectory (generateResourceChecksum resourcePath) /\
  keeps sameFiles (generateResourceChecksum resourcePath) /\
  neverExits (generateResourceChecksum resourcePath).
Proof. split; [|split]; effects. Qed.

Lemma generateNewEmptyFile_effects (fileName : option string) :
  keeps sameDirectory (generateNewEmptyFile fileName) /\
  neverExits (generateNewEmptyFile fileName).
Proof. split; effects. Qed.

Lemma modifyResourceName_effects (currentPath newNameFragment : option string) :
  keeps sameDirectory (modifyResourceName currentPath newNameFragment) /\
  neverExits (modifyResourceName currentPath newNameFragment).
Proof. split; effects. Qed.

Lemma obliterateSystemItem_effects (itemPath : option string) :
  keeps sameDirectory (obliterateSystemItem itemPath) /\
  neverExits (obliterateSystemItem itemPath).
Proof. split; effects. Qed.

Lemma transferResourceViaStream_effects (source destinationContainer : option string)
  (isMoveOperation : bool) :
  keeps sameDirectory
    (transferResourceViaStream source destinationContainer isMoveOperation) /\
  neverExits
    (transferResourceViaStream source destinationContainer isMoveOperation).
Proof. split; effects. Qed.

Lemma transformFileWithBrotli_effects (sourcePath targetPath : option string)
  (mode : string) :
  keeps sameDirectory (transformFileWithBrotli sourcePath targetPath mode) /\
  neverExits (transformFileWithBrotli sourcePath targetPath mode).
Proof. split; effects. Qed.

Lemma ownProperty_In {F} (own : list (string * F)) (key : string) (f : F) :
  ownProperty own key = Some f -> In (key, f) own.
Proof.
  induction own as [|[k g] own IH]; simpl; [discriminate|].
  destruct (String.eqb_spec k key) as [->|_].
  - intros H. injection H as ->. now left.
  - intros H. right. now apply IH.
Qed.

Lemma getProperty_Own {F} (own : list (string * F)) (key : string) (f : F) :
  getProperty own key = Some (Own f) -> In (key, f) own.
Proof.
  unfold getProperty. destruct (ownProperty own key) as [g|] eqn:E.
  - intros H. injection H as ->. now apply ownProperty_In.
  - destruct (existsb _ _); discriminate.
Qed.

Lemma callAsMethod_keeps (R : World -> World -> Prop) (name key : string) :
  frame R -> keeps R (callAsMethod name key).
Proof. intros HR. effects. Qed.

Lemma callAsMethod_neverExits (name key : string) :
  neverExits (callAsMethod name key).
Proof. effects. Qed.

Lemma callDetached_keeps (R : World -> World -> Prop) (name key : string)
  (args : list string) :
  frame R -> keeps R (callDetached name key args).
Proof. intros HR. effects. Qed.

Lemma callDetached_neverExits (name key : string) (args : list string) :
  neverExits (callDetached name key args).
Proof. effects. Qed.

#[local] Hint Resolve callAsMethod_keeps callAsMethod_neverExits
  callDetached_keeps callDetached_neverExits : effects.

Lemma reportOperatingSystemProperty_keeps (R : World -> World -> Prop)
  (propertyKey : option string) :
  frame R -> keeps R (reportOperatingSystemProperty propertyKey).
Proof.
  intros HR. unfold reportOperatingSystemProperty.
  destruct (falsy propertyKey); [auto with effects|].
  destruct (getProperty propertyAccessors (str propertyKey)) as [[f|key]|] eqn:E;
    [|auto with effects..].
  apply getProperty_Own in E. unfold propertyAccessors in E. cbn [In] in E.
  repeat (destruct E as [E|E]; [injection E as _ <-; effects|]).
  contradiction.
Qed.

Lemma reportOperatingSystemProperty_neverExits (propertyKey : option string) :
  neverExits (reportOperatingSystemProperty propertyKey).
Proof.
  unfold reportOperatingSystemProperty.
  destruct (falsy propertyKey); [auto with effects|].
  destruct (getProperty propertyAccessors (str propertyKey)) as [[f|key]|] eqn:E;
    [|auto with effects..].
  apply getProperty_Own in E. unfold propertyAccessors in E. cbn [In] in E.
  repeat (destruct E as [E|E]; [injection E as _ <-; effects|]).
  contradiction.
Qed.

#[local] Hint Resolve reportOperatingSystemProperty_keeps
  reportOperatingSystemProperty_neverExits : effects.

(** Taking the command table apart: one goal per registered name. *)
Ltac registered E :=
  apply getProperty_Own in E; unfold commandRegistry in E; cbn [In] in E;
  repeat (destruct E as [E|E]; [injection E as <- <-|]);
  [..|contradiction].

(** ** What a line can and cannot do *)

(** Only [cd] and [up] change the working directory: the lookup and call
    for any other name, registered or not, with any arguments, leaves
    the host and the working directory as they were, whether the
    handler returns, throws or ends the process. *)
Theorem only_navigation_changes_directory (name : string) (args : list string) :
  name <> "cd" -> name <> "up" -> keeps sameDirectory (dispatch name args).
Proof.
  intros Hcd Hup. unfold dispatch.
  destruct (getProperty commandRegistry name) as [[f|key]|] eqn:E;
    [|effects..].
  registered E; try congruence; cbv beta; effects.
Qed.

Lemma only_navigation_changes_directory_witness :
  sameDirectory sampleWorld (snd (dispatch "mv" ["notes.txt"; "d"] sampleWorld)).
Proof.
  apply (only_navigation_changes_directory "mv" ["notes.txt"; "d"]); discriminate.
Defined.

(** The commands other than [add], [rn], [cp], [mv], [rm], [compress]
    and [decompress] never change the filesystem: the lookup and call
    for any other name, with any arguments, leaves the tree as it was. *)
Theorem reading_commands_keep_files (name : string) (args : list string) :
  ~ In name writingCommands -> keeps sameFiles (dispatch name args).
Proof.
  intros Hw. unfold dispatch.
  destruct (getProperty commandRegistry name) as [[f|key]|] eqn:E;
    [|effects..].
  registered E; try (exfalso; apply Hw; simpl; tauto); cbv beta; effects.
Qed.

Lemma reading_commands_keep_files_witness :
  sameFiles sampleWorld (snd (dispatch "cat" ["notes.txt"] sampleWorld)).
Proof.
  apply (reading_commands_keep_files "cat" ["notes.txt"]).
  simpl. intuition discriminate.
Defined.

Lemma neverThrows_emit (o : output) : neverThrows (emit o).
Proof. intros w e. discriminate. Qed.

Lemma neverThrows_displayCurrentPath : neverThrows displayCurrentPath.
Proof. intros w e. discriminate. Qed.

Lemma neverThrows_tryCatch (m : M unit) (handler : error -> M unit) :
  (forall e, neverThrows (handler e)) -> neverThrows (tryCatch m handler).
Proof.
  intros Hh w e. unfold tryCatch.
  destruct (m w) as [[a|e'|c] w1]; simpl; try discriminate. apply Hh.
Qed.

Lemma neverThrows_dispatch (name : string) (args : list string) :
  neverThrows (dispatch name args).
Proof.
  unfold dispatch. destruct (getProperty commandRegistry name) as [p|].
  - apply neverThrows_tryCatch. intros e. apply neverThrows_emit.
  - apply neverThrows_emit.
Qed.

(** No line lets an error escape the callback; and when the callback
    returns, the last two things on the console are the location line,
    showing the working directory the line has led to, and the prompt. *)
Theorem onLine_survives_and_prompts (userInputLine : string) (w : World) :
  (forall e, fst (onLine userInputLine w) <> Thrown e) /\
  (fst (onLine userInputLine w) = Returned tt ->
   exists before,
     console (snd (onLine userInputLine w)) =
     (before ++
      [ConsoleLog (LF ++ "[Current Location]: " ++ cwd (snd (onLine userInputLine w)));
       Prompt])%list).
Proof.
  unfold onLine. destruct (trim userInputLine =? "").
  - split; [discriminate|]. intros _. exists (console w).
    unfold displayCurrentPath. unfold_monad. cbn [snd]. world_step.
    now rewrite <- app_assoc.
  - unfold bind.
    pose proof (neverThrows_dispatch (hd "undefined" (split_ws (trim userInputLine)))
                  (tl (split_ws (trim userInputLine))) w) as Hd.
    destruct (dispatch _ _ w) as [[[]|e|c] w1]; simpl in *.
    + split; [discriminate|]. intros _. exists (console w1).
      unfold displayCurrentPath. unfold_monad. world_step.
      now rewrite <- app_assoc.
    + exfalso. now apply (Hd e).
    + split; discriminate.
Qed.

Lemma dispatch_exit_inv (name : string) (args : list string) (w : World)
  (code : Z) :
  fst (dispatch name args w) = Exited code -> name = ".exit" /\ code = 0%Z.
Proof.
  intros H.
  assert (Hother : name <> ".exit" -> neverExits (dispatch name args)).
  { intros Hne. unfold dispatch.
    destruct (getProperty commandRegistry name) as [[f|key]|] eqn:E;
      [|effects..].
    registered E; try congruence; cbv beta; effects. }
  destruct (String.eqb_spec name ".exit") as [->|Hne].
  - split; [reflexivity|].
    change (fst (dispatch ".exit" args w)) with (@Exited unit 0%Z) in H.
    congruence.
  - exfalso. exact (Hother Hne w code H).
Qed.

(** The process ends inside the line callback only when the first token
    of the trimmed line is [.exit], and then with code 0. *)
Theorem exit_only_by_command (userInputLine : string) (w : World) (code : Z) :
  fst (onLine userInputLine w) = Exited code ->
  hd "undefined" (split_ws (trim userInputLine)) = ".exit" /\ code = 0%Z.
Proof.
  unfold onLine. destruct (trim userInputLine =? ""); [discriminate|].
  unfold bind.
  destruct (dispatch (hd "undefined" (split_ws (trim userInputLine)))
              (tl (split_ws (trim userInputLine))) w) as [[[]|e|c] w1] eqn:E;
    simpl; try discriminate.
  intros H. injection H as <-.
  exact (dispatch_exit_inv _ _ _ _ (f_equal fst E)).
Qed.

Lemma exit_only_by_command_witness :
  hd "undefined" (split_ws (trim "  .exit now ")) = ".exit" /\ 0%Z = 0%Z.
Proof.
  exact (exit_only_by_command "  .exit now " sampleWorld 0%Z eq_refl).
Defined.

Lemma trimStart_allWhiteSpace (s : string) :
  allWhiteSpace s = true -> trimStart s = "".
Proof.
  induction s as [|c s IH]; simpl; [reflexivity|].
  intros H. apply andb_prop in H as [Hc Hs]. rewrite Hc. now apply IH.
Qed.

(** A line of white space only (the empty line too) runs no command:
    the callback shows the location and the prompt, and nothing else
    changes. *)
Theorem blank_line_only_prompts (userInputLine : string) (w : World) :
  allWhiteSpace userInputLine = true ->
  onLine userInputLine w = displayCurrentPath w /\
  root (snd (onLine userInputLine w)) = root w /\
  cwd (snd (onLine userInputLine w)) = cwd w /\
  calls (snd (onLine userInputLine w)) = calls w.
Proof.
  intros H. unfold onLine, trim.
  rewrite (trimStart_allWhiteSpace _ H). simpl. repeat split.
Qed.

Lemma blank_line_only_prompts_witness :
  onLine (String "009"%char "   ") sampleWorld = displayCurrentPath sampleWorld /\
  root (snd (onLine (String "009"%char "   ") sampleWorld)) = root sampleWorld /\
  cwd (snd (onLine (String "009"%char "   ") sampleWorld)) = cwd sampleWorld /\
  calls (snd (onLine (String "009"%char "   ") sampleWorld)) = calls sampleWorld.
Proof.
  exact (blank_line_only_prompts (String "009"%char "   ") sampleWorld eq_refl).
Defined.

(** ** More on the filesystem tree *)

Section FsMore.

Import fs.

Lemma alter_present (f : option node -> errno + option node) (p : list string)
  (n m : node) (new : option node) :
  p <> [] -> lookup p n = inr m -> f (Some m) = inr new ->
  exists n', alter f p n = inr n'.
Proof.
  revert n. induction p as [|name rest IH]; intros n Hp Hl Hf; [congruence|].
  simpl in Hl. destruct n as [|es|]; try discriminate.
  destruct (entry name es) as [child|] eqn:Ec; [|discriminate].
  destruct rest as [|name' rest'].
  - simpl in Hl. injection Hl as ->. simpl. rewrite Ec, Hf.
    destruct new; eauto.
  - destruct (IH child ltac:(discriminate) Hl Hf) as [child' Hc].
    change (alter f (name :: name' :: rest') (Dir es))
      with (match entry name es with
            | Some c =>
                match alter f (name' :: rest') c with
                | inl e => inl e
                | inr c' => inr (Dir (putEntry name c' es))
                end
            | None => inl ENOENT
            end).
    rewrite Ec, Hc. eauto.
Qed.

Lemma removeEntry_absent (name : string) (es : list (string * node)) :
  entry name es = None -> removeEntry name es = es.
Proof.
  induction es as [|[k v] es IH]; simpl; [reflexivity|].
  destruct (k =? name); [discriminate|]. intros H. now rewrite IH.
Qed.

Lemma removeEntry_putEntry (name : string) (m : node) (es : list (string * node)) :
  entry name es = None -> removeEntry name (putEntry name m es) = es.
Proof.
  induction es as [|[k v] es IH]; simpl.
  - now rewrite String.eqb_refl.
  - destruct (k =? name) eqn:E; [discriminate|]. intros H. simpl.
    now rewrite E, IH.
Qed.

Lemma putEntry_putEntry (name : string) (a m : node) (es : list (string * node)) :
  entry name es = Some a -> putEntry name a (putEntry name m es) = es.
Proof.
  induction es as [|[k v] es IH]; simpl; [discriminate|].
  destruct (String.eqb_spec k name) as [->|Hne].
  - intros H. injection H as ->. simpl. now rewrite String.eqb_refl.
  - intros H. simpl. apply String.eqb_neq in Hne. now rewrite Hne, IH.
Qed.

(** A second [alter] at the same path that maps what the first one
    left back to what it found restores the tree. *)
Lemma alter_restore (f g : option node -> errno + option node)
  (p : list string) (n n1 : node) :
  alter f p n = inr n1 ->
  (forall old new,
     lookup p n = found old -> f old = inr new ->
     exists m, new = Some m /\ g (Some m) = inr old) ->
  alter g p n1 = inr n.
Proof.
  revert n n1. induction p as [|name rest IH]; intros n n1 Ha Hg;
    simpl in Ha; [discriminate|].
  destruct n as [|es|]; try discriminate.
  destruct rest as [|name' rest'].
  - destruct (f (entry name es)) as [e|new] eqn:Ef; [discriminate|].
    destruct (Hg (entry name es) new) as (m & -> & Hgm);
      [simpl; now destruct (entry name es)|assumption|].
    injection Ha as <-. simpl. rewrite entry_putEntry_same, Hgm.
    destruct (entry name es) as [a|] eqn:Ee.
    + now rewrite putEntry_putEntry.
    + now rewrite removeEntry_putEntry.
  - destruct (entry name es) as [child|] eqn:Ec; [|discriminate].
    destruct (alter f (name' :: rest') child) as [e|child1] eqn:Ea; [discriminate|].
    injection Ha as <-.
    assert (Hback : alter g (name' :: rest') child1 = inr child).
    { apply (IH child child1 Ea). intros old new Hl Hf. apply Hg; [|assumption].
      simpl. rewrite Ec. exact Hl. }
    change (alter g (name :: name' :: rest') (Dir (putEntry name child1 es)))
      with (match entry name (putEntry name child1 es) with
            | Some c =>
                match alter g (name' :: rest') c with
                | inl e => inl e
                | inr c' => inr (Dir (putEntry name c' (putEntry name child1 es)))
                end
            | None => inl ENOENT
            end).
    rewrite entry_putEntry_same, Hback. now rewrite putEntry_putEntry.
Qed.

Lemma lookup_app (p q : list string) (n : node) :
  lookup (p ++ q) n =
  match lookup p n with
  | inr m => lookup q m
  | inl e => inl e
  end.
Proof.
  revert n. induction p as [|x p IH]; intros n; simpl; [reflexivity|].
  destruct n as [|es|]; try reflexivity.
  destruct (entry x es); [apply IH|reflexivity].
Qed.

Lemma openTruncate_lookup (p : list string) (n n' : node) :
  openTruncate p n = inr n' -> lookup p n' = inr (File []).
Proof.
  unfold openTruncate. destruct p as [|x xs]; [discriminate|]. intros H.
  apply alter_inv in H as (old & new & Hf & _ & Hnew).
  destruct old as [[| |]|]; inversion Hf; subst; assumption.
Qed.

(** The file a write stream has opened can be written. *)
Lemma store_after_open (content : list byte) (p : list string) (n n' : node) :
  openTruncate p n = inr n' -> exists n'', store content p n' = inr n''.
Proof.
  intros H. pose proof (openTruncate_lookup _ _ _ H) as Hl.
  unfold store. destruct p as [|x xs]; [discriminate|].
  eapply alter_present; [discriminate|exact Hl|reflexivity].
Qed.

End FsMore.

(** ** [add] and [rm] *)

Lemma add_run (w : World) (fileName : string) :
  (fileName =? "") = false ->
  let target := path.resolve (cwd w) [cwd w; fileName] in
  generateNewEmptyFile (Some fileName) w =
  match fs.createExclusive (path.components target) (root w) with
  | inr r =>
      (Returned tt,
       withOutput (ConsoleLog ("File " ++ quoted fileName ++ " created successfully."))
         (withRoot r (withCall (CallOpenExclusive target) w)))
  | inl e =>
      (Thrown (SystemError e "open" [target]), withCall (CallOpenExclusive target) w)
  end.
Proof.
  intros H target. unfold generateNewEmptyFile, createNewFileContent, falsy.
  rewrite H. unfold_monad. cbn [str]. world_step. fold target.
  destruct (fs.createExclusive (path.components target) (root w)); reflexivity.
Qed.

Lemma rm_run (w : World) (itemPath : string) :
  (itemPath =? "") = false ->
  let target := path.resolve (cwd w) [cwd w; itemPath] in
  obliterateSystemItem (Some itemPath) w =
  match fs.unlink (path.components target) (root w) with
  | inr r =>
      (Returned tt,
       withOutput (ConsoleLog ("Item " ++ quoted itemPath ++ " removed."))
         (withRoot r (withCall (CallUnlink target) w)))
  | inl e =>
      (Thrown (SystemError e "unlink" [target]), withCall (CallUnlink target) w)
  end.
Proof.
  intros H target. unfold obliterateSystemItem, removeItemFromSystem, falsy.
  rewrite H. unfold_monad. cbn [str]. world_step. fold target.
  destruct (fs.unlink (path.components target) (root w)); reflexivity.
Qed.

Lemma add_returns_inv (w w' : World) (fileName : string) :
  generateNewEmptyFile (Some fileName) w = (Returned tt, w') ->
  (fileName =? "") = false /\
  cwd w' = cwd w /\
  fs.createExclusive
    (path.components (path.resolve (cwd w) [cwd w; fileName])) (root w) =
  inr (root w').
Proof.
  intros H. destruct (fileName =? "") eqn:E.
  { unfold generateNewEmptyFile, falsy in H. rewrite E in H. discriminate. }
  rewrite (add_run w fileName E) in H. cbv zeta in H.
  destruct (fs.createExclusive _ (root w)) as [e|r]; [discriminate|].
  injection H as <-. repeat split.
Qed.

(** [add] is not repeatable: once [add] has returned for a name, the
    same [add] throws the EEXIST of the exclusive open and changes
    nothing in the filesystem. *)
Theorem add_twice_refused (w w' : World) (fileName : string) :
  generateNewEmptyFile (Some fileName) w = (Returned tt, w') ->
  let target := path.resolve (cwd w) [cwd w; fileName] in
  generateNewEmptyFile (Some fileName) w' =
  (Thrown (SystemError EEXIST "open" [target]),
   withCall (CallOpenExclusive target) w') /\
  kindOf (SystemError EEXIST "open" [target]) = AlreadyExists.
Proof.
  intros H target.
  destruct (add_returns_inv _ _ _ H) as (Hname & Hcwd & Hc).
  fold target in Hc. split; [|reflexivity].
  rewrite (add_run w' fileName Hname). cbv zeta. rewrite Hcwd. fold target.
  unfold fs.createExclusive in *.
  destruct (path.components target) as [|c cs] eqn:E; [discriminate|].
  apply alter_inv in Hc as (old & new & Hf & _ & Hnew).
  destruct old; [discriminate|]. injection Hf as <-.
  rewrite (alter_refused _ (c :: cs) (root w') (File []) EEXIST);
    try reflexivity; (discriminate || assumption).
Qed.

Lemma add_twice_refused_witness :
  generateNewEmptyFile (Some "test.txt")
    (snd (generateNewEmptyFile (Some "test.txt") sampleWorld)) =
  (Thrown (SystemError EEXIST "open" ["/home/u/test.txt"]),
   withCall (CallOpenExclusive "/home/u/test.txt")
     (snd (generateNewEmptyFile (Some "test.txt") sampleWorld))) /\
  kindOf (SystemError EEXIST "open" ["/home/u/test.txt"]) = AlreadyExists.
Proof.
  exact (add_twice_refused sampleWorld
           (snd (generateNewEmptyFile (Some "test.txt") sampleWorld))
           "test.txt" eq_refl).
Defined.

(** [rm] undoes [add]: after [add] has returned for a name, [rm] of the
    same name returns and the filesystem is the tree from before the
    [add], entry for entry. *)
Theorem add_then_rm_restores (w w1 : World) (fileName : string) :
  generateNewEmptyFile (Some fileName) w = (Returned tt, w1) ->
  exists w2,
    obliterateSystemItem (Some fileName) w1 = (Returned tt, w2) /\
    root w2 = root w /\ cwd w2 = cwd w.
Proof.
  intros H.
  destruct (add_returns_inv _ _ _ H) as (Hname & Hcwd & Hc).
  rewrite (rm_run w1 fileName Hname). cbv zeta. rewrite Hcwd.
  set (target := path.resolve (cwd w) [cwd w; fileName]) in *.
  assert (Hu : fs.unlink (path.components target) (root w1) = inr (root w)).
  { unfold fs.createExclusive, fs.unlink in *.
    destruct (path.components target) as [|c cs]; [discriminate|].
    apply (alter_restore _ _ _ _ _ Hc).
    intros [m|] new _ Hf; [discriminate|].
    injection Hf as <-. eauto. }
  rewrite Hu. eexists. split; [reflexivity|]. split; [reflexivity|exact Hcwd].
Qed.

Lemma add_then_rm_restores_witness :
  exists w2,
    obliterateSystemItem (Some "test.txt")
      (snd (generateNewEmptyFile (Some "test.txt") sampleWorld)) =
    (Returned tt, w2) /\
    root w2 = root sampleWorld /\ cwd w2 = cwd sampleWorld.
Proof.
  exact (add_then_rm_restores sampleWorld
           (snd (generateNewEmptyFile (Some "test.txt") sampleWorld))
           "test.txt" eq_refl).
Defined.

(** [rm] removes what is not a directory and refuses a directory: for a
    path that names a regular file or a special node, [rm] returns, the
    path names nothing afterwards and every regular file at another
    path is as before; for a path that names a directory (empty or
    not), [rm] throws the EISDIR of [unlink] and the filesystem is as
    before. *)
Theorem rm_unlinks_files_only (w : World) (itemPath : string) (m : node) :
  (itemPath =? "") = false ->
  let target := path.resolve (cwd w) [cwd w; itemPath] in
  fs.lookup (path.components target) (root w) = inr m ->
  path.components target <> [] ->
  match m with
  | Dir _ =>
      obliterateSystemItem (Some itemPath) w =
      (Thrown (SystemError EISDIR "unlink" [target]), withCall (CallUnlink target) w)
  | _ =>
      exists w',
        obliterateSystemItem (Some itemPath) w = (Returned tt, w') /\
        fs.lookup (path.components target) (root w') = inl ENOENT /\
        cwd w' = cwd w /\
        forall q content,
          q <> path.components target ->
          fs.lookup q (root w) = inr (File content) ->
          fs.lookup q (root w') = inr (File content)
  end.
Proof.
  intros Hname target Hl Hne.
  rewrite (rm_run w itemPath Hname). cbv zeta. fold target.
  assert (Hok : (forall es, m <> Dir es) ->
                exists r, fs.unlink (path.components target) (root w) = inr r).
  { intros Hm. unfold fs.unlink.
    destruct (path.components target) as [|c cs] eqn:E; [congruence|].
    destruct m as [content|es|].
    - eapply alter_present; [discriminate|exact Hl|reflexivity].
    - now destruct (Hm es).
    - eapply alter_present; [discriminate|exact Hl|reflexivity]. }
  destruct m as [content|es|].
  - destruct Hok as [r Hr]; [discriminate|]. rewrite Hr.
    eexists. split; [reflexivity|]. world_step.
    split; [exact (unlink_lookup _ _ _ Hr)|]. split; [reflexivity|].
    intros q c Hq Hq'. exact (unlink_frame _ _ _ _ _ Hr Hq' Hq).
  - unfold fs.unlink.
    destruct (path.components target) as [|c cs] eqn:E; [congruence|].
    rewrite (alter_refused _ (c :: cs) (root w) (Dir es) EISDIR);
      try reflexivity; (discriminate || assumption).
  - destruct Hok as [r Hr]; [discriminate|]. rewrite Hr.
    eexists. split; [reflexivity|]. world_step.
    split; [exact (unlink_lookup _ _ _ Hr)|]. split; [reflexivity|].
    intros q c Hq Hq'. exact (unlink_frame _ _ _ _ _ Hr Hq' Hq).
Qed.

Lemma rm_unlinks_files_only_witness :
  (exists w',
     obliterateSystemItem (Some "notes.txt") sampleWorld = (Returned tt, w') /\
     fs.lookup ["home"; "u"; "notes.txt"] (root w') = inl ENOENT /\
     cwd w' = cwd sampleWorld /\
     forall q content,
       q <> ["home"; "u"; "notes.txt"] ->
       fs.lookup q (root sampleWorld) = inr (File content) ->
       fs.lookup q (root w') = inr (File content)) /\
  obliterateSystemItem (Some "d") sampleWorld =
  (Thrown (SystemError EISDIR "unlink" ["/home/u/d"]),
   withCall (CallUnlink "/home/u/d") sampleWorld).
Proof.
  split.
  - exact (rm_unlinks_files_only sampleWorld "notes.txt" (File [x68; x69]%byte)
             eq_refl eq_refl ltac:(discriminate)).
  - exact (rm_unlinks_files_only sampleWorld "d" (Dir [])
             eq_refl eq_refl ltac:(discriminate)).
Defined.

(** ** [cp] and [mv] composed with themselves *)

(** Everything a returning [cp] or [mv] has established. *)
Lemma transfer_returns_facts (w w' : World) (source destinationContainer : string)
  (isMoveOperation : bool) :
  path.isAbsolute (cwd w) = true ->
  transferResourceViaStream (Some source) (Some destinationContainer)
    isMoveOperation w = (Returned tt, w') ->
  let s := path.resolve (cwd w) [cwd w; source] in
  let d := path.resolve (cwd w) [cwd w; destinationContainer; path.basename s] in
  (source =? "") = false /\ (destinationContainer =? "") = false /\
  (s =? d) = false /\ path.components s <> path.components d /\
  cwd w' = cwd w /\ host w' = host w /\
  exists content r1 r2,
    fs.lookup (path.components s) (root w) = inr (File content) /\
    fs.openTruncate (path.components d) (root w) = inr r1 /\
    fs.store content (path.components d) r1 = inr r2 /\
    fs.lookup (path.components s) r2 = inr (File content) /\
    fs.lookup (path.components d) r2 = inr (File content) /\
    if isMoveOperation then fs.unlink (path.components s) r2 = inr (root w')
    else root w' = r2.
Proof.
  intros Habs H s d.
  destruct (transfer_returns_inv _ _ _ _ _ H)
    as (Hs & Hd & Hne & content & content' & r1 & r2 & Hl & Ho & Hr & Hst).
  fold s in Hne, Hl, Ho, Hr, Hst. fold d in Hne, Ho, Hst.
  assert (Hsd : path.components s <> path.components d).
  { intros E. apply (resolve_components_inj _ _ _ Habs) in E.
    fold s d in E. rewrite E, String.eqb_refl in Hne. discriminate. }
  pose proof (openTruncate_frame _ _ _ _ _ Ho Hl Hsd) as Hl1.
  unfold fs.read in Hr. rewrite Hl1 in Hr. injection Hr as <-.
  pose proof (transfer_file_run w source destinationContainer isMoveOperation
                content Habs Hs Hd Hne Hl r1 r2 Ho Hst) as Hrun.
  fold s d in Hrun. cbv zeta in Hrun. rewrite H in Hrun.
  assert (Hw : cwd w' = cwd w /\ host w' = host w /\
               if isMoveOperation
               then fs.unlink (path.components s) r2 = inr (root w')
               else root w' = r2).
  { destruct isMoveOperation.
    - destruct (fs.unlink (path.components s) r2) as [e|r3]; [discriminate|].
      injection Hrun as ->. repeat split.
    - injection Hrun as ->. repeat split. }
  destruct Hw as (Hcwd & Hhost & Hroot).
  repeat (split; [assumption|]).
  exists content, r1, r2. repeat (split; [assumption|]).
  split; [exact (store_frame _ _ _ _ _ _ Hst Hl1 Hsd)|].
  split; [exact (store_lookup _ _ _ _ Hst)|exact Hroot].
Qed.

(** [mv] is not repeatable: once [mv] has returned, the same [mv] throws
    the ENOENT of the metadata query for the source, a NotFound, and
    leaves the filesystem as the first [mv] left it. *)
Theorem mv_twice_not_found (w w' : World) (source destinationContainer : string) :
  path.isAbsolute (cwd w) = true ->
  transferResourceViaStream (Some source) (Some destinationContainer) true w =
  (Returned tt, w') ->
  let s := path.resolve (cwd w) [cwd w; source] in
  transferResourceViaStream (Some source) (Some destinationContainer) true w' =
  (Thrown (SystemError ENOENT "stat" [s]), withCall (CallStat s) w') /\
  kindOf (SystemError ENOENT "stat" [s]) = NotFound.
Proof.
  intros Habs H s.
  destruct (transfer_returns_facts _ _ _ _ _ Habs H)
    as (Hs & Hd & Hne & _ & Hcwd & _ & content & r1 & r2 & _ & _ & _ & _ & _ & Hu).
  fold s in Hne, Hu. apply unlink_lookup in Hu.
  split; [|reflexivity].
  unfold transferResourceViaStream, falsy. rewrite Hs, Hd.
  unfold getItemMetadata. unfold_monad. cbn [orb str]. rewrite Hcwd. fold s.
  rewrite Hne. world_step. rewrite Hu. reflexivity.
Qed.

Lemma mv_twice_not_found_witness :
  transferResourceViaStream (Some "notes.txt") (Some "d") true
    (snd (transferResourceViaStream (Some "notes.txt") (Some "d") true sampleWorld)) =
  (Thrown (SystemError ENOENT "stat" ["/home/u/notes.txt"]),
   withCall (CallStat "/home/u/notes.txt")
     (snd (transferResourceViaStream (Some "notes.txt") (Some "d") true
             sampleWorld))) /\
  kindOf (SystemError ENOENT "stat" ["/home/u/notes.txt"]) = NotFound.
Proof.
  exact (mv_twice_not_found sampleWorld
           (snd (transferResourceViaStream (Some "notes.txt") (Some "d") true
                   sampleWorld))
           "notes.txt" "d" eq_refl eq_refl).
Defined.

(** [cp] is repeatable: once [cp] has returned, the same [cp] returns
    again and leaves exactly the tree the first one left (the
    destination is emptied and written with the same content). *)
Theorem cp_twice_same_tree (w w1 : World) (source destinationContainer : string) :
  path.isAbsolute (cwd w) = true ->
  transferResourceViaStream (Some source) (Some destinationContainer) false w =
  (Returned tt, w1) ->
  exists w2,
    transferResourceViaStream (Some source) (Some destinationContainer) false w1 =
    (Returned tt, w2) /\
    root w2 = root w1.
Proof.
  intros Habs H.
  destruct (transfer_returns_facts _ _ _ _ _ Habs H)
    as (Hs & Hd & Hne & Hsd & Hcwd & _ & content & r1 & r2 &
        _ & Ho & _ & Hl2 & Hd2 & Hroot).
  cbv iota in Hroot.
  set (s := path.resolve (cwd w) [cwd w; source]) in *.
  set (d := path.resolve (cwd w) [cwd w; destinationContainer; path.basename s]) in *.
  assert (Hopen : exists r3, fs.openTruncate (path.components d) r2 = inr r3).
  { unfold fs.openTruncate.
    destruct (path.components d) as [|c cs] eqn:E; [discriminate|].
    eapply alter_present; [discriminate|exact Hd2|reflexivity]. }
  destruct Hopen as [r3 Hr3].
  assert (Hstore : fs.store content (path.components d) r3 = inr r2).
  { unfold fs.openTruncate, fs.store in *.
    destruct (path.components d) as [|c cs]; [discriminate|].
    apply (alter_restore _ _ _ _ _ Hr3).
    intros old new Hold Hf. rewrite Hd2 in Hold.
    destruct old as [m|]; [|discriminate]. injection Hold as <-.
    injection Hf as <-. eauto. }
  assert (Habs1 : path.isAbsolute (cwd w1) = true) by now rewrite Hcwd.
  pose proof (transfer_file_run w1 source destinationContainer false content
                Habs1 Hs Hd) as Hrun.
  rewrite Hcwd, Hroot in Hrun. fold s d in Hrun.
  specialize (Hrun Hne Hl2 r3 r2 Hr3 Hstore). cbv zeta iota in Hrun.
  rewrite Hrun. eexists. split; [reflexivity|]. now rewrite Hroot.
Qed.

Lemma cp_twice_same_tree_witness :
  exists w2,
    transferResourceViaStream (Some "notes.txt") (Some "d") false
      (snd (transferResourceViaStream (Some "notes.txt") (Some "d") false
              sampleWorld)) = (Returned tt, w2) /\
    root w2 =
    root (snd (transferResourceViaStream (Some "notes.txt") (Some "d") false
                 sampleWorld)).
Proof.
  exact (cp_twice_same_tree sampleWorld
           (snd (transferResourceViaStream (Some "notes.txt") (Some "d") false
                   sampleWorld))
           "notes.txt" "d" eq_refl eq_refl).
Defined.

(** ** [cp] and [mv] through symbolic links *)

(** *** Walks *)

Section LinkWalks.

Import fs.

(** An update that never replaces a directory leaves every directory a
    directory. *)
Lemma alter_keeps_directories (f : option node -> errno + option node)
  (p q : list string) (n n' : node) (es : list (string * node)) :
  (forall es new, f (Some (Dir es)) <> inr new) ->
  alter f p n = inr n' ->
  lookup q n = inr (Dir es) ->
  exists es', lookup q n' = inr (Dir es').
Proof.
  intros Hf. revert q n n'.
  induction p as [|name rest IH]; intros q n n' Ha Hl; simpl in Ha; [discriminate|].
  destruct n as [|nes|]; try discriminate.
  destruct q as [|qname qrest].
  { destruct rest as [|name' rest'].
    - destruct (f (entry name nes)) as [e|[m|]]; inversion Ha; simpl; eauto.
    - destruct (entry name nes) as [child|]; [|discriminate].
      destruct (alter f (name' :: rest') child) as [e|child']; inversion Ha.
      simpl; eauto. }
  simpl in Hl.
  destruct (String.eqb_spec qname name) as [->|Hname].
  - destruct (entry name nes) as [child|] eqn:Ec; [|discriminate].
    destruct rest as [|name' rest'].
    + assert (Hchild : exists ces, child = Dir ces).
      { destruct qrest as [|q1 q2]; simpl in Hl.
        - inversion Hl. eauto.
        - destruct child as [|ces|]; try discriminate. eauto. }
      destruct Hchild as [ces ->].
      destruct (f (Some (Dir ces))) as [e|new] eqn:Ef; [discriminate|].
      now apply Hf in Ef.
    + destruct (alter f (name' :: rest') child) as [e|child'] eqn:Ea; [discriminate|].
      inversion Ha; subst; clear Ha.
      simpl. rewrite entry_putEntry_same.
      apply (IH qrest child child' Ea Hl).
  - destruct rest as [|name' rest'].
    + destruct (f (entry name nes)) as [e|[m|]]; inversion Ha; subst; clear Ha; simpl.
      * rewrite entry_putEntry_other by assumption. eauto.
      * rewrite entry_removeEntry_other by assumption. eauto.
    + destruct (entry name nes) as [child|]; [|discriminate].
      destruct (alter f (name' :: rest') child) as [e|child']; [discriminate|].
      inversion Ha; subst; clear Ha. simpl.
      rewrite entry_putEntry_other by assumption. eauto.
Qed.

Lemma enter_directory (r : node) (q : list string) :
  linked.enter r q = None <-> exists es, lookup q r = inr (Dir es).
Proof.
  unfold linked.enter. destruct (lookup q r) as [e|[c|es|]]; split;
    try discriminate; try (intros [es' H]; discriminate); eauto.
Qed.

Lemma openTruncate_enter (p : list string) (r r' : node) :
  openTruncate p r = inr r' ->
  forall q, linked.enter r q = None -> linked.enter r' q = None.
Proof.
  unfold openTruncate. destruct p as [|c cs]; [discriminate|].
  intros H q Hq. apply enter_directory in Hq as [es Hq]. apply enter_directory.
  revert H Hq. apply alter_keeps_directories. intros es' new. discriminate.
Qed.

Lemma store_enter (content : list byte) (p : list string) (r r' : node) :
  store content p r = inr r' ->
  forall q, linked.enter r q = None -> linked.enter r' q = None.
Proof.
  unfold store. destruct p as [|c cs]; [discriminate|].
  intros H q Hq. apply enter_directory in Hq as [es Hq]. apply enter_directory.
  revert H Hq. apply alter_keeps_directories. intros es' new. discriminate.
Qed.

(** A walk that arrives goes the same way in a tree that has kept the
    directories. *)
Lemma walk_stable (links : list (list string * string)) (r r' : node) :
  (forall q, linked.enter r q = None -> linked.enter r' q = None) ->
  forall budget done todo reached,
    linked.walk links r budget done todo = inr reached ->
    linked.walk links r' budget done todo = inr reached.
Proof.
  intros Hr. induction budget as [|budget IHb]; intros done todo; revert done;
    induction todo as [|name rest IH]; intros done reached H; simpl in *;
    try assumption;
    (destruct (name =? ""); [now apply IH|]);
    (destruct ((name =? ".") || (name =? ".."));
     [destruct (linked.enter r done) eqn:E; [discriminate|];
      rewrite (Hr _ E); now apply IH|]);
    (destruct (linked.linkAt (done ++ [name]) links); [|now apply IH]).
  - discriminate.
  - now apply IHb.
Qed.

(** One more component that is no link is walked as it stands. *)
Lemma walk_snoc (links : list (list string * string)) (r : node) (name : string) :
  cleanSegment name = true ->
  forall budget done todo directory,
    linked.walk links r budget done todo = inr directory ->
    linked.linkAt (directory ++ [name]) links = None ->
    linked.walk links r budget done (todo ++ [name]) = inr (directory ++ [name])%list.
Proof.
  intros Hc. apply cleanSegment_inv in Hc as (_ & E1 & E2 & E3).
  induction budget as [|budget IHb]; intros done todo; revert done;
    induction todo as [|x rest IH]; intros done directory H Hl; simpl in *;
    try (inversion H; subst; rewrite E1, E2, E3, Hl; reflexivity);
    (destruct (x =? ""); [now apply IH|]);
    (destruct ((x =? ".") || (x =? ".."));
     [destruct (linked.enter r done); [discriminate|]; now apply IH|]);
    (destruct (linked.linkAt (done ++ [x]) links); [|now apply IH]).
  - discriminate.
  - rewrite app_assoc. now apply IHb.
Qed.

Lemma unlink_enter (p : list string) (r r' : node) :
  unlink p r = inr r' ->
  forall q, linked.enter r q = None -> linked.enter r' q = None.
Proof.
  unfold unlink. destruct p as [|c cs]; [discriminate|].
  intros H q Hq. apply enter_directory in Hq as [es Hq]. apply enter_directory.
  revert H Hq. apply alter_keeps_directories. intros es' new. discriminate.
Qed.

End LinkWalks.

Lemma components_clean (p : string) :
  Forall (fun c => cleanSegment c = true) (path.components p).
Proof.
  apply normalizeSegments_keeps_clean; [apply segments_all_noSlash|constructor].
Qed.

(** A path whose last component is no link leads to where that
    component stands. *)
Lemma physical_of_place (w : linked.LinkedWorld) (p : string) (q : list string) :
  linked.place w p = inr q ->
  linked.linkAt q (linked.symlinks w) = None ->
  linked.physical w p = inr q.
Proof.
  unfold linked.place, linked.physical. intros H Hl.
  pose proof (components_clean p) as Hc.
  destruct (path.components p) as [|c cs] eqn:E; [discriminate|].
  assert (Hne : c :: cs <> []) by discriminate.
  destruct (linked.walk (linked.symlinks w) (root (linked.plain w))
              linked.maxLinks [] (removelast (c :: cs))) as [e|directory] eqn:Ew;
    [discriminate|].
  injection H as <-.
  rewrite (app_removelast_last "" Hne) in Hc.
  apply Forall_app in Hc as [_ Hlast]. inversion Hlast as [|? ? Hclean _]; subst.
  rewrite (app_removelast_last "" Hne) at 1.
  now apply walk_snoc.
Qed.

Lemma through_at {A} (w : linked.LinkedWorld) (p : string) (q : list string)
  (operation : list string -> node -> errno + A) :
  linked.walk (linked.symlinks w) (root (linked.plain w)) linked.maxLinks []
    (path.components p) = inr q ->
  linked.through w p operation = operation q (root (linked.plain w)).
Proof. intros H. unfold linked.through, linked.physical. now rewrite H. Qed.

Lemma place_stable (w w' : linked.LinkedWorld) (p : string) (q : list string) :
  linked.symlinks w' = linked.symlinks w ->
  (forall x, linked.enter (root (linked.plain w)) x = None ->
             linked.enter (root (linked.plain w')) x = None) ->
  linked.place w p = inr q -> linked.place w' p = inr q.
Proof.
  unfold linked.place. intros -> Hr H.
  destruct (path.components p) as [|c cs]; [discriminate|].
  destruct (linked.walk (linked.symlinks w) (root (linked.plain w))
              linked.maxLinks [] (removelast (c :: cs))) as [e|directory] eqn:E;
    [discriminate|].
  now rewrite (walk_stable _ _ _ Hr _ _ _ _ E).
Qed.

(** *** Without links, the calls over links are the calls on the tree *)

Section LinkFacts.

(** [agrees]: with no link in the world, every call of [linked] is the
    call of the tree, and so is the handler. *)
Lemma walk_without_links (root : node) (budget : nat) (cs done : list string) :
  Forall (fun c => cleanSegment c = true) cs ->
  linked.walk [] root budget done cs = inr (done ++ cs)%list.
Proof.
  intros H. revert done.
  induction H as [|c cs Hc _ IH]; intros done.
  - destruct budget; simpl; now rewrite app_nil_r.
  - apply cleanSegment_inv in Hc as (_ & E1 & E2 & E3).
    specialize (IH (done ++ [c])%list). rewrite <- app_assoc in IH. simpl in IH.
    destruct budget; simpl in *; rewrite E1, E2, E3; simpl; exact IH.
Qed.

Lemma physical_without_links (w : linked.LinkedWorld) (p : string) :
  linked.symlinks w = [] -> linked.physical w p = inr (path.components p).
Proof.
  intros H. unfold linked.physical. rewrite H.
  now rewrite walk_without_links by apply components_clean.
Qed.

Lemma place_without_links (w : linked.LinkedWorld) (p : string) :
  linked.symlinks w = [] ->
  linked.place w p =
  match path.components p with
  | [] => inl EISDIR
  | cs => inr cs
  end.
Proof.
  intros H. unfold linked.place. rewrite H.
  pose proof (components_clean p) as Hc.
  destruct (path.components p) as [|c cs] eqn:E; [reflexivity|].
  assert (Hne : c :: cs <> []) by discriminate.
  rewrite (app_removelast_last "" Hne) in Hc.
  apply Forall_app in Hc as [Hc _].
  rewrite walk_without_links by exact Hc. rewrite app_nil_l.
  now rewrite <- (app_removelast_last "" Hne).
Qed.

Lemma through_without_links {A} (w : linked.LinkedWorld) (p : string)
  (operation : list string -> node -> errno + A) :
  linked.symlinks w = [] ->
  linked.through w p operation =
  operation (path.components p) (root (linked.plain w)).
Proof.
  intros H. unfold linked.through. now rewrite physical_without_links.
Qed.

Lemma agrees_lift {A} (m : M A) : agrees (linked.lift m) m.
Proof. intros w _. reflexivity. Qed.

Lemma agrees_ret {A} (a : A) : agrees (linked.ret a) (ret a).
Proof. intros [p links] _. reflexivity. Qed.

Lemma agrees_throw {A} (e : error) :
  agrees (@linked.throw A e) (throw e).
Proof. intros [p links] _. reflexivity. Qed.

Lemma agrees_bind {A B} (lm : linked.LM A) (m : M A)
  (lk : A -> linked.LM B) (k : A -> M B) :
  agrees lm m -> (forall a, agrees (lk a) (k a)) ->
  agrees (linked.bind lm lk) (bind m k).
Proof.
  intros Hm Hk w Hw. unfold linked.bind, bind.
  rewrite (Hm w Hw). unfold linked.lift.
  destruct (m (linked.plain w)) as [[a|e|c] p']; try reflexivity.
  rewrite (Hk a {| linked.plain := p'; linked.symlinks := linked.symlinks w |}
             Hw).
  reflexivity.
Qed.

Lemma agrees_tryCatch (lm : linked.LM unit) (m : M unit)
  (lh : error -> linked.LM unit) (h : error -> M unit) :
  agrees lm m -> (forall e, agrees (lh e) (h e)) ->
  agrees (linked.tryCatch lm lh) (tryCatch m h).
Proof.
  intros Hm Hh w Hw. unfold linked.tryCatch, tryCatch.
  rewrite (Hm w Hw). unfold linked.lift.
  destruct (m (linked.plain w)) as [[a|e|c] p']; try reflexivity.
  rewrite (Hh e {| linked.plain := p'; linked.symlinks := linked.symlinks w |}
             Hw).
  reflexivity.
Qed.

Lemma getItemMetadata_agrees (p : string) :
  agrees (linked.getItemMetadata p) (getItemMetadata p).
Proof.
  intros w Hw. unfold linked.getItemMetadata, getItemMetadata.
  unfold linked.bind, linked.ask, bind, ask, linked.lift, issue.
  cbn [linked.plain linked.symlinks]. rewrite through_without_links by exact Hw.
  destruct w as [q links]. cbn [linked.plain linked.symlinks].
  destruct (fs.lookup (path.components p) (root q)); reflexivity.
Qed.

Lemma establishReadFlow_agrees (p : string) :
  agrees (linked.establishReadFlow p) (establishReadFlow p).
Proof.
  intros w Hw. unfold linked.establishReadFlow, establishReadFlow.
  unfold linked.bind, linked.ask, bind, ask, linked.lift, issue.
  cbn [linked.plain linked.symlinks]. rewrite through_without_links by exact Hw.
  destruct w as [q links]. cbn [linked.plain linked.symlinks].
  destruct (fs.lookup (path.components p) (root q)) as [e|[]]; reflexivity.
Qed.

Lemma establishWriteFlow_agrees (p : string) :
  agrees (linked.establishWriteFlow p) (establishWriteFlow p).
Proof.
  intros w Hw. unfold linked.establishWriteFlow, establishWriteFlow.
  unfold linked.bind, linked.ask, bind, ask, linked.lift, issue.
  cbn [linked.plain linked.symlinks]. rewrite through_without_links by exact Hw.
  destruct w as [q links]. cbn [linked.plain linked.symlinks].
  destruct (fs.openTruncate (path.components p) (root q)); reflexivity.
Qed.

Lemma readAll_agrees (p : string) (opened : option error) :
  agrees (linked.readAll p opened) (readAll p opened).
Proof.
  intros w Hw. unfold linked.readAll, readAll.
  unfold linked.bind, linked.ask, bind, ask, linked.lift.
  rewrite through_without_links by exact Hw.
  destruct w as [q links]. cbn [linked.plain linked.symlinks].
  destruct opened; [reflexivity|].
  destruct (fs.read (path.components p) (root q)); reflexivity.
Qed.

Lemma writeAll_agrees (p : string) (content : list byte) :
  agrees (linked.writeAll p content) (writeAll p content).
Proof.
  intros w Hw. unfold linked.writeAll, writeAll.
  unfold linked.bind, linked.ask, bind, ask, linked.lift.
  rewrite through_without_links by exact Hw.
  destruct w as [q links]. cbn [linked.plain linked.symlinks].
  destruct (fs.store content (path.components p) (root q)); reflexivity.
Qed.

Lemma removeItemFromSystem_agrees (p : string) :
  agrees (linked.removeItemFromSystem p) (removeItemFromSystem p).
Proof.
  intros w Hw. unfold linked.removeItemFromSystem, removeItemFromSystem.
  unfold linked.bind, linked.ask, bind, ask, linked.lift, issue.
  cbn [linked.plain linked.symlinks]. rewrite place_without_links by exact Hw.
  destruct w as [q links]. cbn [linked.plain linked.symlinks] in *. subst links.
  destruct (path.components p) as [|c cs]; [reflexivity|].
  cbn [linked.linkAt].
  destruct (fs.unlink (c :: cs) (root q)); reflexivity.
Qed.

Lemma pipeStreams_agrees (readPath writePath : string)
  (readStream writeStream : option error)
  (transform : list byte -> string + list byte)
  (readText transformText writeText : string) :
  agrees (linked.pipeStreams readPath writePath readStream writeStream
            transform readText transformText writeText)
         (pipeStreams readPath writePath readStream writeStream
            transform readText transformText writeText).
Proof.
  unfold linked.pipeStreams, pipeStreams.
  destruct readStream; [apply agrees_throw|].
  destruct writeStream; [apply agrees_throw|].
  apply agrees_bind; [apply readAll_agrees|]. intros [err|content].
  - apply agrees_throw.
  - destruct (transform content); [apply agrees_throw|].
    apply agrees_tryCatch; [apply writeAll_agrees|]. intros e. apply agrees_throw.
Qed.

Lemma transfer_without_links
  (source destinationContainer : option string) (isMoveOperation : bool) :
  agrees
    (linked.transferResourceViaStream source destinationContainer isMoveOperation)
    (transferResourceViaStream source destinationContainer
       isMoveOperation).
Proof.
  unfold linked.transferResourceViaStream, transferResourceViaStream.
  destruct (falsy source || falsy destinationContainer); [apply agrees_throw|].
  apply agrees_bind; [apply agrees_lift|]. intros here.
  match goal with |- context [if ?b then _ else _] => destruct b end;
    [apply agrees_throw|].
  apply agrees_bind; [apply getItemMetadata_agrees|]. intros sourceMetadata.
  cbv zeta.
  destruct sourceMetadata; [|apply agrees_throw|];
    (apply agrees_bind; [apply establishReadFlow_agrees|]; intros readStream;
     apply agrees_bind; [apply establishWriteFlow_agrees|]; intros writeStream;
     apply agrees_bind; [apply pipeStreams_agrees|]; intros _;
     destruct isMoveOperation;
     [apply agrees_bind; [apply removeItemFromSystem_agrees|]; intros _|];
     apply agrees_lift).
Qed.

End LinkFacts.

(** *** A copy or a move to another file *)

Ltac link_step :=
  cbn [linked.plain linked.symlinks root cwd withCall withRoot withOutput
       console calls host].

Tactic Notation "link_step" "in" hyp(H) :=
  cbn [linked.plain linked.symlinks root cwd withCall withRoot withOutput
       console calls host] in H.

Ltac unfold_linked :=
  unfold linked.transferResourceViaStream, linked.pipeStreams,
    linked.getItemMetadata, linked.establishReadFlow, linked.establishWriteFlow,
    linked.readAll, linked.writeAll, linked.removeItemFromSystem,
    linked.getCurrentWorkingDirectory, linked.consoleLog, falsy in *;
  unfold linked.bind, linked.ret, linked.throw, linked.tryCatch, linked.ask,
    linked.lift, linked.setSymlinks in *;
  unfold_monad.

(** The next call through the links, in the run [H] or in the goal,
    goes where [Hp] says. *)
Tactic Notation "through_step" "in" hyp(H) "with" constr(Hp) :=
  match type of H with
  | context [linked.through ?W ?p ?op] =>
      rewrite (through_at W p _ op Hp) in H; link_step in H
  end.

Tactic Notation "through_step" "with" constr(Hp) :=
  match goal with
  | |- context [linked.through ?W ?p ?op] =>
      rewrite (through_at W p _ op Hp); link_step
  end.

(** The run of [cp] and [mv] on a regular file that is not the file
    the destination leads to. *)
Lemma linked_transfer_run (p : World) (links : list (list string * string))
  (source destinationContainer : string) (isMoveOperation : bool)
  (content : list byte) (ps pd : list string) (r1 r2 : node) :
  let w := {| linked.plain := p; linked.symlinks := links |} in
  let s := path.resolve (cwd p) [cwd p; source] in
  let d := path.resolve (cwd p) [cwd p; destinationContainer; path.basename s] in
  (source =? "") = false -> (destinationContainer =? "") = false ->
  (s =? d) = false ->
  linked.place w s = inr ps ->
  linked.linkAt ps links = None ->
  linked.physical w d = inr pd ->
  ps <> pd ->
  fs.lookup ps (root p) = inr (File content) ->
  fs.openTruncate pd (root p) = inr r1 ->
  fs.store content pd r1 = inr r2 ->
  let copied :=
    withRoot r2
      (withRoot r1
         (withCall (CallOpenWrite d)
            (withCall (CallOpenRead s) (withCall (CallStat s) p)))) in
  let target := path.join [destinationContainer; path.basename s] in
  linked.transferResourceViaStream (Some source) (Some destinationContainer)
    isMoveOperation w =
  if isMoveOperation then
    match fs.unlink ps r2 with
    | inr r3 =>
        (Returned tt,
         {| linked.plain :=
              withOutput
                (ConsoleLog ("Moved " ++ quoted source ++ " to " ++
                             quoted target ++ "."))
                (withRoot r3 (withCall (CallUnlink s) copied));
            linked.symlinks := links |})
    | inl e =>
        (Thrown (SystemError e "unlink" [s]),
         {| linked.plain := withCall (CallUnlink s) copied;
            linked.symlinks := links |})
    end
  else
    (Returned tt,
     {| linked.plain :=
          withOutput
            (ConsoleLog ("Copied " ++ quoted source ++ " to " ++
                         quoted target ++ "."))
            copied;
        linked.symlinks := links |}).
Proof.
  intros w s d Es Ed Esd Hplace Hnolink Hd Hne El Eo Est copied target.
  pose proof (physical_of_place w s ps Hplace Hnolink) as Hs.
  unfold linked.physical in Hs, Hd. subst w. link_step in Hs. link_step in Hd.
  assert (Hs1 : linked.walk links r1 linked.maxLinks [] (path.components s) = inr ps)
    by exact (walk_stable _ _ _ (openTruncate_enter _ _ _ Eo) _ _ _ _ Hs).
  assert (Hd1 : linked.walk links r1 linked.maxLinks [] (path.components d) = inr pd)
    by exact (walk_stable _ _ _ (openTruncate_enter _ _ _ Eo) _ _ _ _ Hd).
  assert (El1 : fs.lookup ps r1 = inr (File content))
    by exact (openTruncate_frame _ _ _ _ _ Eo El Hne).
  unfold_linked. cbn [str]. rewrite Es, Ed. cbn [orb]. link_step.
  fold s. fold d. rewrite Esd.
  through_step with Hs. rewrite El. link_step.
  through_step with Hs. rewrite El. link_step.
  through_step with Hd. rewrite Eo. link_step.
  through_step with Hs1. unfold fs.read. rewrite El1. link_step.
  through_step with Hd1. rewrite Est. link_step.
  destruct isMoveOperation; [|reflexivity].
  match goal with
  | |- context [linked.place ?W s] =>
      rewrite (place_stable {| linked.plain := p; linked.symlinks := links |}
                 W s ps eq_refl
                 (fun x Hx =>
                    store_enter _ _ _ _ Est _ (openTruncate_enter _ _ _ Eo _ Hx))
                 Hplace)
  end.
  link_step. rewrite Hnolink.
  destruct (fs.unlink ps r2); reflexivity.
Qed.

(** What a returning [cp] or [mv] has found on its way. *)
Lemma linked_transfer_returns_inv (w w' : linked.LinkedWorld)
  (source destinationContainer : string) (isMoveOperation : bool)
  (ps pd : list string) :
  linked.transferResourceViaStream (Some source) (Some destinationContainer)
    isMoveOperation w = (Returned tt, w') ->
  let s := path.resolve (cwd (linked.plain w)) [cwd (linked.plain w); source] in
  let d := path.resolve (cwd (linked.plain w))
             [cwd (linked.plain w); destinationContainer; path.basename s] in
  linked.physical w s = inr ps ->
  linked.physical w d = inr pd ->
  ps <> pd ->
  (source =? "") = false /\ (destinationContainer =? "") = false /\
  (s =? d) = false /\
  exists content r1 r2,
    fs.lookup ps (root (linked.plain w)) = inr (File content) /\
    fs.openTruncate pd (root (linked.plain w)) = inr r1 /\
    fs.store content pd r1 = inr r2.
Proof.
  intros H s d Hs Hd Hne.
  unfold linked.physical in Hs, Hd.
  destruct w as [p links]. link_step in Hs. link_step in Hd.
  link_step in s. link_step in d.
  unfold_linked. cbn [str] in H. link_step in H.
  destruct (source =? "") eqn:Es; cbn [orb] in H; [discriminate H|].
  destruct (destinationContainer =? "") eqn:Ed; cbn [orb] in H; [discriminate H|].
  link_step in H. fold s in H. fold d in H.
  destruct (s =? d) eqn:Esd; [discriminate H|].
  repeat split.
  through_step in H with Hs.
  destruct (fs.lookup ps (root p)) as [e|[content|es|]] eqn:El;
    link_step in H; try discriminate H.
  - through_step in H with Hs. rewrite El in H. link_step in H.
    through_step in H with Hd.
    destruct (fs.openTruncate pd (root p)) as [e|r1] eqn:Eo; link_step in H;
      [destruct isMoveOperation; discriminate H|].
    pose proof (walk_stable _ _ _ (openTruncate_enter _ _ _ Eo) _ _ _ _ Hs) as Hs1.
    pose proof (walk_stable _ _ _ (openTruncate_enter _ _ _ Eo) _ _ _ _ Hd) as Hd1.
    through_step in H with Hs1. unfold fs.read in H.
    rewrite (openTruncate_frame _ _ _ _ _ Eo El Hne) in H. link_step in H.
    through_step in H with Hd1.
    destruct (fs.store content pd r1) as [e|r2] eqn:Est; link_step in H;
      [destruct isMoveOperation; discriminate H|].
    exists content, r1, r2. link_step. repeat split; assumption.
  - through_step in H with Hs. rewrite El in H. link_step in H.
    through_step in H with Hd.
    destruct (fs.openTruncate pd (root p)); link_step in H;
      destruct isMoveOperation; discriminate H.
Qed.



(** ** [compress] and [decompress] *)

(** The run of a transformation whose target could be opened, by what
    the source path names. *)
Lemma brotli_run (w : World) (sourcePath targetPath mode : string) (r1 : node) :
  (sourcePath =? "") = false ->
  (targetPath =? "") = false ->
  let a := path.resolve (cwd w) [cwd w; sourcePath] in
  let b := path.resolve (cwd w) [cwd w; targetPath] in
  fs.openTruncate (path.components b) (root w) = inr r1 ->
  let opened :=
    withRoot r1 (withCall (CallOpenWrite b) (withCall (CallOpenRead a) w)) in
  transformFileWithBrotli (Some sourcePath) (Some targetPath) mode w =
  match fs.lookup (path.components a) (root w) with
  | inl e =>
      (Thrown (Error (("Read stream error during Brotli " ++ mode ++ ": ") ++
                      message (SystemError e "open" [a]))), opened)
  | inr Other =>
      (Thrown (Error (("Read stream error during Brotli " ++ mode ++ ": ") ++
                      message (SystemError ENXIO "open" [a]))), opened)
  | inr _ =>
      match fs.read (path.components a) r1 with
      | inl e =>
          (Thrown (Error (("Read stream error during Brotli " ++ mode ++ ": ") ++
                          message (SystemError e "read" []))), opened)
      | inr content =>
          match (if mode =? "encode" then inr (brotliEncode (host w) content)
                 else brotliDecode (host w) content) with
          | inl text =>
              (Thrown (Error (("Brotli stream error during " ++ mode ++ ": ") ++ text)),
               opened)
          | inr transformed =>
              match fs.store transformed (path.components b) r1 with
              | inr r2 =>
                  (Returned tt,
                   withOutput
                     (ConsoleLog
                        ("File " ++ quoted sourcePath ++ " " ++
                         (if mode =? "encode" then "compressed" else "decompressed") ++
                         " to " ++ quoted targetPath ++ "."))
                     (withRoot r2 opened))
              | inl e =>
                  (Thrown (Error (("Write stream error during Brotli " ++ mode ++ ": ") ++
                                  message (SystemError e "write" []))), opened)
              end
          end
      end
  end.
Proof.
  intros Hs Ht a b Ho opened.
  unfold transformFileWithBrotli, pipeStreams, establishReadFlow,
    establishWriteFlow, readAll, writeAll, falsy.
  rewrite Hs, Ht. unfold_monad. cbn [orb str]. fold a. fold b. world_step.
  destruct (fs.lookup (path.components a) (root w)) as [e|[c|es|]];
    world_step; rewrite Ho; world_step; try reflexivity.
  - destruct (fs.read (path.components a) r1) as [e|content]; world_step;
      [reflexivity|].
    destruct (mode =? "encode"); world_step.
    + destruct (fs.store _ (path.components b) r1); reflexivity.
    + destruct (brotliDecode (host w) content); world_step; [reflexivity|].
      destruct (fs.store _ (path.components b) r1); reflexivity.
  - destruct (fs.read (path.components a) r1) as [e|content]; world_step;
      [reflexivity|].
    destruct (mode =? "encode"); world_step.
    + destruct (fs.store _ (path.components b) r1); reflexivity.
    + destruct (brotliDecode (host w) content); world_step; [reflexivity|].
      destruct (fs.store _ (path.components b) r1); reflexivity.
Qed.

(** Unlike [cp] and [mv], the transformations open their target before
    anything is known of the source: with a source path that names
    nothing and a target that can be opened, [compress] and
    [decompress] throw the read-stream error, and the target path names
    an empty regular file afterwards, created or emptied. *)
Theorem brotli_missing_source_empties_target (w : World)
  (sourcePath targetPath mode : string) (e : errno) (r1 : node) :
  (sourcePath =? "") = false ->
  (targetPath =? "") = false ->
  let a := path.resolve (cwd w) [cwd w; sourcePath] in
  let b := path.resolve (cwd w) [cwd w; targetPath] in
  fs.lookup (path.components a) (root w) = inl e ->
  fs.openTruncate (path.components b) (root w) = inr r1 ->
  exists w',
    transformFileWithBrotli (Some sourcePath) (Some targetPath) mode w =
    (Thrown (Error (("Read stream error during Brotli " ++ mode ++ ": ") ++
                    message (SystemError e "open" [a]))), w') /\
    fs.lookup (path.components b) (root w') = inr (File []) /\
    calls w' = (calls w ++ [CallOpenRead a; CallOpenWrite b])%list.
Proof.
  intros Hs Ht a b Hl Ho.
  rewrite (brotli_run w sourcePath targetPath mode r1 Hs Ht Ho).
  fold a b. rewrite Hl. eexists. split; [reflexivity|]. world_step.
  split; [exact (openTruncate_lookup _ _ _ Ho)|].
  now rewrite <- app_assoc.
Qed.

Lemma brotli_missing_source_empties_target_witness :
  exists w',
    transformFileWithBrotli (Some "nothing") (Some "notes.txt") "encode" sampleWorld =
    (Thrown (Error (("Read stream error during Brotli " ++ "encode" ++ ": ") ++
                    message (SystemError ENOENT "open" ["/home/u/nothing"]))), w') /\
    fs.lookup ["home"; "u"; "notes.txt"] (root w') = inr (File []) /\
    calls w' =
    (calls sampleWorld ++
     [CallOpenRead "/home/u/nothing"; CallOpenWrite "/home/u/notes.txt"])%list.
Proof.
  exact (brotli_missing_source_empties_target sampleWorld "nothing" "notes.txt"
           "encode" ENOENT _ eq_refl eq_refl eq_refl eq_refl).
Defined.



(** ** Start-up, [cd] and [up] together *)

Section NavigationFacts.

Import path.

(** An absolute argument is resolved without the working directory. *)
Lemma resolve_absolute_argument (here a : string) :
  isAbsolute a = true ->
  resolve here [a] =
  render (normalizeSegments false [] (segments (a ++ "/" ++ ""))) /\
  Forall (fun c => cleanSegment c = true)
    (normalizeSegments false [] (segments (a ++ "/" ++ ""))).
Proof.
  intros Ha. split.
  - unfold resolve. cbn [rev app resolveLoop].
    destruct a as [|c0 a']; [discriminate|].
    change (String c0 a' =? "") with false. cbv iota. rewrite Ha. reflexivity.
  - apply normalizeSegments_keeps_clean; [apply segments_all_noSlash|constructor].
Qed.

Lemma cleanSegment_relative (name : string) :
  cleanSegment name = true -> (name =? "") = false /\ isAbsolute name = false.
Proof.
  intros H. apply cleanSegment_inv in H as (Hs & He & _ & _).
  split; [assumption|]. destruct name as [|c n]; [reflexivity|].
  simpl in *. apply andb_prop in Hs as [Hc _]. now apply negb_true_iff in Hc.
Qed.

(** Resolving a clean name in a rendered working directory appends it. *)
Lemma resolve_child (cs : list string) (name : string) :
  Forall (fun c => cleanSegment c = true) cs ->
  cleanSegment name = true ->
  resolve (render cs) [render cs; name] = render (cs ++ [name]).
Proof.
  intros Hcs Hname.
  destruct (cleanSegment_relative _ Hname) as [He Hrel].
  pose proof (cleanSegment_inv _ Hname) as (Hns & _ & Hd & Hdd).
  unfold resolve. cbn [rev app resolveLoop].
  rewrite He, Hrel, render_not_empty, render_absolute. cbn [negb].
  rewrite segments_app_slash.
  rewrite normalize_after_render by assumption.
  rewrite segments_app_slash, (segments_noSlash _ Hns).
  simpl. rewrite He, Hd, Hdd. simpl. now rewrite rev_involutive.
Qed.

End NavigationFacts.

(** What [up] does in a rendered working directory that is a
    directory. *)
Lemma up_run (w : World) (cs : list string) (es : list (string * node)) :
  Forall (fun c => cleanSegment c = true) cs ->
  cwd w = render cs ->
  fs.lookup cs (root w) = inr (Dir es) ->
  navigateUpward w =
  if render cs =? path.resolve (render cs) [homedir (host w)] then
    (Returned tt,
     withOutput
       (ConsoleLog "Already at the root user directory. Cannot go further up.") w)
  else
    (Returned tt,
     withCwd (render (removelast cs))
       (withCall (CallChdir (render (removelast cs))) w)).
Proof.
  intros Hclean Hcwd Hdir.
  assert (Hparent : exists es', fs.lookup (removelast cs) (root w) = inr (Dir es')).
  { destruct cs as [|c cs'] using rev_ind; [simpl; eauto|].
    rewrite removelast_last. eapply lookup_parent. eassumption. }
  destruct Hparent as [es' Hparent].
  assert (Hclean' : Forall (fun c => cleanSegment c = true) (removelast cs)).
  { destruct cs as [|c cs'] using rev_ind; [constructor|].
    rewrite removelast_last. now apply Forall_app in Hclean as [? _]. }
  unfold navigateUpward, changeCurrentDirectory. unfold_monad.
  rewrite Hcwd, (resolve_rendered _ _ Hclean).
  destruct (render cs =? path.resolve (render cs) [homedir (host w)]);
    cbn [negb]; [reflexivity|].
  world_step. rewrite Hcwd, (resolve_parent cs Hclean).
  rewrite (components_render _ Hclean'), Hparent. reflexivity.
Qed.



(** [cd] into a child directory and [up] again: in a rendered working
    directory, for a clean name of a directory in it, [cd name]
    returns in the child; from there [up] leads back to the directory
    the session came from with the filesystem untouched, unless the
    child is the home directory, where [up] is refused and the session
    stays in the child. *)
Theorem cd_child_then_up (w : World) (cs : list string) (name : string)
  (sub : list (string * node)) :
  Forall (fun c => cleanSegment c = true) cs ->
  cwd w = render cs ->
  cleanSegment name = true ->
  fs.lookup (cs ++ [name]) (root w) = inr (Dir sub) ->
  let child := render (cs ++ [name]) in
  exists w1 w2,
    navigateToSpecificDirectory (Some name) w = (Returned tt, w1) /\
    cwd w1 = child /\
    navigateUpward w1 = (Returned tt, w2) /\
    root w2 = root w /\
    cwd w2 =
    if child =? path.resolve child [homedir (host w)] then child else cwd w.
Proof.
  intros Hcs Hcwd Hname Hl child.
  destruct (cleanSegment_relative _ Hname) as [He _].
  assert (Hchild : Forall (fun c => cleanSegment c = true) (cs ++ [name]))
    by (apply Forall_app; split; [assumption|now constructor]).
  unfold navigateToSpecificDirectory, getItemMetadata, changeCurrentDirectory, falsy.
  rewrite He. unfold_monad. cbn [str]. world_step.
  rewrite Hcwd, (resolve_child cs name Hcs Hname). fold child.
  unfold child at 1. rewrite (components_render _ Hchild), Hl. world_step.
  rewrite (resolve_rendered _ _ Hchild). fold child.
  unfold child at 1. rewrite (components_render _ Hchild), Hl. world_step.
  pose proof (up_run (withCwd child
                        (withCall (CallChdir child) (withCall (CallStat child) w)))
                (cs ++ [name]) sub Hchild eq_refl Hl) as Hup.
  change (host (withCwd child
                  (withCall (CallChdir child) (withCall (CallStat child) w))))
    with (host w) in Hup.
  fold child in Hup. rewrite removelast_last in Hup.
  destruct (child =? path.resolve child [homedir (host w)]).
  - eexists. eexists. split; [reflexivity|]. split; [reflexivity|].
    split; [exact Hup|]. split; reflexivity.
  - eexists. eexists. split; [reflexivity|]. split; [reflexivity|].
    split; [exact Hup|]. split; reflexivity.
Qed.

Lemma cd_child_then_up_witness :
  exists w1 w2,
    navigateToSpecificDirectory (Some "projects") sampleWorld = (Returned tt, w1) /\
    cwd w1 = "/home/u/projects" /\
    navigateUpward w1 = (Returned tt, w2) /\
    root w2 = root sampleWorld /\
    cwd w2 = "/home/u".
Proof.
  exact (cd_child_then_up sampleWorld ["home"; "u"] "projects" []
           ltac:(repeat constructor) eq_refl eq_refl eq_refl).
Defined.

(** ** [rn] *)

Section RenameFacts.

Import path.

Lemma append_empty (s : string) : s ++ "" = s.
Proof. induction s as [|c s IH]; simpl; [reflexivity|now rewrite IH]. Qed.

Lemma reverse_append (acc a b : string) :
  reverse acc (a ++ b) = reverse (reverse acc a) b.
Proof.
  revert acc. induction a as [|c a IH]; intros acc; simpl; [reflexivity|apply IH].
Qed.

Lemma append_associative (a b c : string) : (a ++ b) ++ c = a ++ b ++ c.
Proof. induction a as [|x a IH]; simpl; [reflexivity|now rewrite IH]. Qed.

Lemma reverse_accumulator (acc s : string) :
  reverse acc s = reverse "" s ++ acc.
Proof.
  revert acc. induction s as [|c s IH]; intros acc; simpl; [reflexivity|].
  rewrite (IH (String c acc)), (IH (String c "")).
  now rewrite append_associative.
Qed.

Lemma reverse_reverse (acc s : string) :
  reverse "" (reverse acc s) = reverse "" acc ++ s.
Proof.
  revert acc. induction s as [|c s IH]; intros acc; simpl.
  - now rewrite append_empty.
  - rewrite IH. simpl. rewrite (reverse_accumulator (String c "")).
    now rewrite append_associative.
Qed.

Lemma reverse_ends_without_slash (acc name : string) :
  (name =? "") = false -> noSlash name = true ->
  isAbsolute (reverse acc name) = false.
Proof.
  revert acc. induction name as [|c n IH]; intros acc He Hs; [discriminate|].
  simpl in Hs. apply andb_prop in Hs as [Hc Hn]. apply negb_true_iff in Hc.
  simpl. destruct n as [|c' n'].
  - simpl. exact Hc.
  - apply IH; [reflexivity|assumption].
Qed.

(** The scan of [dirname] runs over a last segment without stopping. *)
Lemma dropTail_reverse (matched : bool) (acc name : string) :
  noSlash name = true ->
  dropTail matched (reverse acc name) =
  dropTail (if name =? "" then matched else false) acc.
Proof.
  revert acc matched. induction name as [|c n IH]; intros acc matched Hs;
    [reflexivity|].
  simpl in Hs. apply andb_prop in Hs as [Hc Hn]. apply negb_true_iff in Hc.
  simpl reverse. rewrite (IH _ _ Hn). simpl. rewrite Hc.
  now destruct (n =? "").
Qed.

Lemma joinSegments_noSlash_last (ds : list string) (base : string) :
  joinSegments (ds ++ [base]) =
  match ds with
  | [] => base
  | _ => joinSegments ds ++ "/" ++ base
  end.
Proof.
  induction ds as [|d ds IH]; [reflexivity|].
  change (joinSegments ((d :: ds) ++ [base]))
    with (joinSegments (d :: (ds ++ [base]))).
  destruct ds as [|d' ds'].
  - reflexivity.
  - change (joinSegments (d :: (d' :: ds') ++ [base]))
      with (d ++ "/" ++ joinSegments ((d' :: ds') ++ [base])).
    rewrite IH.
    change (joinSegments (d :: d' :: ds')) with (d ++ "/" ++ joinSegments (d' :: ds')).
    generalize (joinSegments (d' :: ds')). intros j.
    induction d as [|c d IHd]; simpl; [reflexivity|].
    simpl in IHd. now rewrite IHd.
Qed.

Lemma joinSegments_not_empty (ds : list string) (base : string) :
  (base =? "") = false -> (joinSegments (ds ++ [base]) =? "") = false.
Proof.
  intros He. rewrite joinSegments_noSlash_last.
  destruct ds as [|d ds']; [assumption|].
  generalize (joinSegments (d :: ds')). intros j. now destruct j.
Qed.

(** [dirname] of a rendered path is the rendered path without its last
    component. *)
Lemma dirname_render (ds : list string) (base : string) :
  cleanSegment base = true ->
  (forall d ds', ds = d :: ds' -> (joinSegments ds =? "") = false) ->
  dirname (render (ds ++ [base])) = render ds.
Proof.
  intros Hbase Hds.
  apply cleanSegment_inv in Hbase as (Hs & He & _ & _).
  unfold render. rewrite joinSegments_noSlash_last.
  destruct ds as [|d ds'].
  - change ("/" ++ base) with (String "/" base).
    unfold dirname. rewrite (dropTail_reverse _ _ _ Hs), He. reflexivity.
  - specialize (Hds d ds' eq_refl).
    set (j := joinSegments (d :: ds')) in *.
    change ("/" ++ j ++ "/" ++ base) with (String "/" (j ++ String "/" base)).
    unfold dirname. rewrite reverse_append.
    change (reverse (reverse "" j) (String "/" base))
      with (reverse (String "/" (reverse "" j)) base).
    rewrite (dropTail_reverse _ _ _ Hs), He.
    change (dropTail false (String "/" (reverse "" j))) with (Some (reverse "" j)).
    cbv iota. rewrite reverse_reverse.
    change (reverse "" "" ++ j) with j.
    destruct (reverse "" j =? "") eqn:E.
    + apply String.eqb_eq in E.
      apply (f_equal (reverse "")) in E. rewrite reverse_reverse in E.
      change (reverse "" "" ++ j) with j in E. change (reverse "" "") with "" in E.
      rewrite E in Hds. discriminate.
    + rewrite andb_false_r. reflexivity.
Qed.

(** [join] of a rendered directory and a clean name appends the name. *)
Lemma join_render (ds : list string) (name : string) :
  Forall (fun c => cleanSegment c = true) ds ->
  cleanSegment name = true ->
  join [render ds; name] = render (ds ++ [name]).
Proof.
  intros Hds Hname.
  pose proof (cleanSegment_inv _ Hname) as (Hs & He & Hd & Hdd).
  unfold join. cbn [filter]. rewrite render_not_empty, He. cbn [negb].
  change (joinSegments [render ds; name]) with (render ds ++ "/" ++ name).
  unfold normalize.
  assert (Hne : (render ds ++ "/" ++ name =? "") = false) by reflexivity.
  rewrite Hne.
  assert (Habs : isAbsolute (render ds ++ "/" ++ name) = true) by reflexivity.
  rewrite Habs. cbn [negb].
  rewrite reverse_append, reverse_append.
  rewrite (reverse_ends_without_slash _ _ He Hs).
  rewrite segments_app_slash, normalize_after_render by assumption.
  rewrite (segments_noSlash _ Hs). simpl normalizeSegments.
  rewrite He, Hd, Hdd. simpl. rewrite rev_involutive.
  rewrite (joinSegments_not_empty _ _ He).
  now rewrite append_empty.
Qed.

End RenameFacts.

Section RenameTree.

Import fs.

Lemma alter_succeeds (f : option node -> errno + option node)
  (parent : list string) (name : string) (n : node)
  (es : list (string * node)) (new : option node) :
  lookup parent n = inr (Dir es) ->
  f (entry name es) = inr new ->
  exists n', alter f (parent ++ [name]) n = inr n'.
Proof.
  revert n. induction parent as [|x parent IH]; intros n Hl Hf; simpl in Hl.
  - injection Hl as ->. simpl. rewrite Hf. destruct new; eauto.
  - destruct n as [|es'|]; try discriminate.
    destruct (entry x es') as [child|] eqn:Ec; [|discriminate].
    destruct (IH child Hl Hf) as [child' Hc].
    simpl. rewrite Ec.
    destruct (parent ++ [name])%list eqn:E; [now destruct parent|].
    rewrite Hc. eauto.
Qed.

(** An [alter] at a path that names a regular file leaves every regular
    file at another path as it was. *)
Lemma alter_frame_at_file (f : option node -> errno + option node)
  (p q : list string) (n n' : node) (c0 content : list byte) :
  lookup p n = inr (File c0) ->
  alter f p n = inr n' ->
  lookup q n = inr (File content) ->
  q <> p ->
  lookup q n' = inr (File content).
Proof.
  revert q n n'.
  induction p as [|name rest IH]; intros q n n' Hp Ha Hl Hne; simpl in Ha;
    [discriminate|].
  destruct n as [|es|]; try discriminate.
  destruct q as [|qname qrest]; [simpl in Hl; discriminate|].
  simpl in Hl, Hp.
  destruct (String.eqb_spec qname name) as [->|Hname].
  - destruct (entry name es) as [child|] eqn:Ec; [|discriminate].
    destruct rest as [|name' rest'].
    + simpl in Hp. injection Hp as ->.
      destruct qrest as [|q1 q2]; [congruence|]. simpl in Hl. discriminate.
    + destruct (alter f (name' :: rest') child) as [e|child'] eqn:Ea; [discriminate|].
      injection Ha as <-. simpl. rewrite entry_putEntry_same.
      apply (IH qrest child child' Hp Ea Hl). congruence.
  - destruct rest as [|name' rest'].
    + destruct (f (entry name es)) as [e|[m|]]; inversion Ha; subst; clear Ha; simpl.
      * now rewrite entry_putEntry_other.
      * now rewrite entry_removeEntry_other.
    + destruct (entry name es) as [child|]; [|discriminate].
      destruct (alter f (name' :: rest') child) as [e|child']; [discriminate|].
      inversion Ha; subst; clear Ha. simpl.
      now rewrite entry_putEntry_other.
Qed.

Lemma samePath_sibling (p : list string) (base name : string) :
  base <> name -> samePath (p ++ [base]) (p ++ [name]) = false.
Proof.
  intros H. induction p as [|x p IH]; simpl.
  - apply String.eqb_neq in H. now rewrite H.
  - now rewrite IH, andb_false_r.
Qed.

Lemma isPrefix_sibling (p : list string) (base name : string) :
  base <> name -> isPrefix (p ++ [base]) (p ++ [name]) = false.
Proof.
  intros H. induction p as [|x p IH]; simpl.
  - apply String.eqb_neq in H. now rewrite H.
  - now rewrite IH, andb_false_r.
Qed.

Lemma rename_steps (old new : list string) (n : node) (moved : node) :
  old <> [] ->
  lookup old n = inr moved ->
  samePath old new = false ->
  isPrefix old new = false ->
  rename old new n =
  match
    alter (fun there =>
             match there, moved with
             | None, _ => inr (Some moved)
             | Some (Dir []), Dir _ => inr (Some moved)
             | Some (Dir _), Dir _ => inl ENOTEMPTY
             | Some (Dir _), _ => inl EISDIR
             | Some _, Dir _ => inl ENOTDIR
             | Some _, _ => inr (Some moved)
             end) new n
  with
  | inl e => inl e
  | inr n' => alter (fun _ => inr None) old n'
  end.
Proof.
  intros Hne Hl Hs Hp. unfold rename.
  destruct old as [|x xs]; [congruence|]. now rewrite Hl, Hs, Hp.
Qed.

(** [rename] of a regular file to another name in its directory, where
    that name is free or names a regular file. *)
Lemma rename_sibling (p : list string) (base name : string) (n : node)
  (content : list byte) :
  lookup (p ++ [base]) n = inr (File content) ->
  base <> name ->
  (lookup (p ++ [name]) n = inl ENOENT \/
   exists c', lookup (p ++ [name]) n = inr (File c')) ->
  exists n',
    rename (p ++ [base]) (p ++ [name]) n = inr n' /\
    lookup (p ++ [name]) n' = inr (File content) /\
    lookup (p ++ [base]) n' = inl ENOENT /\
    forall q c,
      q <> (p ++ [base])%list -> q <> (p ++ [name])%list ->
      lookup q n = inr (File c) -> lookup q n' = inr (File c).
Proof.
  intros Hold Hne Hnew.
  set (place := fun there : option node =>
                  match there, File content with
                  | None, _ => inr (Some (File content))
                  | Some (Dir []), Dir _ => inr (Some (File content))
                  | Some (Dir _), Dir _ => inl ENOTEMPTY
                  | Some (Dir _), _ => inl EISDIR
                  | Some _, Dir _ => inl ENOTDIR
                  | Some _, _ => inr (Some (File content))
                  end : errno + option node).
  destruct (lookup_parent _ _ _ _ Hold) as [es Hparent].
  assert (Hplace : exists new, place (entry name es) = inr new).
  { rewrite lookup_app, Hparent in Hnew. simpl in Hnew.
    destruct (entry name es) as [[c'|es'|]|]; simpl; eauto.
    destruct Hnew as [H|[c' H]]; discriminate. }
  destruct Hplace as [new Hplace].
  destruct (alter_succeeds place p name n es new Hparent Hplace) as [n1 Hn1].
  assert (Hdiff : (p ++ [base])%list <> (p ++ [name])%list).
  { intros E. apply app_inv_head in E. congruence. }
  assert (Hold1 : lookup (p ++ [base]) n1 = inr (File content)).
  { apply (alter_frame_file place _ _ _ _ _
             ltac:(intros [|? ?] ?; discriminate) Hn1 Hold Hdiff). }
  assert (Hnew1 : lookup (p ++ [name]) n1 = inr (File content)).
  { apply alter_inv in Hn1 as (old & new' & Hf & _ & Hl).
    destruct old as [[c'|[|? ?]|]|]; simpl in Hf; inversion Hf; subst; exact Hl. }
  assert (Hnonempty : (p ++ [base])%list <> [])
    by (intros E; apply app_eq_nil in E; destruct E; discriminate).
  destruct (alter_present (fun _ => inr None) (p ++ [base]) n1 (File content) None
              Hnonempty Hold1 eq_refl) as [n2 Hn2].
  exists n2. split.
  - rewrite (rename_steps _ _ _ _ Hnonempty Hold
               (samePath_sibling p base name Hne) (isPrefix_sibling p base name Hne)).
    fold place. rewrite Hn1. exact Hn2.
  - split; [|split].
    + apply (alter_frame_at_file _ _ _ _ _ _ _ Hold1 Hn2 Hnew1). congruence.
    + apply alter_inv in Hn2 as (old & new' & Hf & _ & Hl).
      injection Hf as <-. exact Hl.
    + intros q c Hq1 Hq2 Hq.
      apply (alter_frame_at_file _ _ _ _ _ _ _ Hold1 Hn2); [|assumption].
      apply (alter_frame_file place _ _ _ _ _
               ltac:(intros [|? ?] ?; discriminate) Hn1 Hq Hq2).
Qed.

End RenameTree.

Lemma joinSegments_clean_not_empty (ds : list string) :
  Forall (fun c => cleanSegment c = true) ds -> ds <> [] ->
  (path.joinSegments ds =? "") = false.
Proof.
  intros H Hne. destruct ds as [|d ds'] using rev_ind; [congruence|].
  apply Forall_app in H as [_ Hd]. inversion Hd as [|? ? Hc _]; subst.
  apply cleanSegment_inv in Hc as (_ & He & _ & _).
  now apply joinSegments_not_empty.
Qed.

(** [rn] renames inside the directory of the source, not inside the
    working directory: for a path that resolves to a regular file
    [ds/base] and a clean new name that differs from [base] and is free
    in [ds] (or names a regular file there), [rn] returns after the one
    call [rename(ds/base, ds/name)]; afterwards [ds/name] holds the
    content, [ds/base] names nothing, every other regular file is as
    before and the working directory has not moved. *)
Theorem rn_renames_in_place (w : World) (currentPath : string)
  (ds : list string) (base name : string) (content : list byte) :
  (currentPath =? "") = false ->
  Forall (fun c => cleanSegment c = true) (ds ++ [base]) ->
  cleanSegment name = true ->
  base <> name ->
  path.resolve (cwd w) [cwd w; currentPath] = render (ds ++ [base]) ->
  fs.lookup (ds ++ [base]) (root w) = inr (File content) ->
  (fs.lookup (ds ++ [name]) (root w) = inl ENOENT \/
   exists c', fs.lookup (ds ++ [name]) (root w) = inr (File c')) ->
  exists w',
    modifyResourceName (Some currentPath) (Some name) w = (Returned tt, w') /\
    calls w' =
    (calls w ++ [CallRename (render (ds ++ [base])) (render (ds ++ [name]))])%list /\
    fs.lookup (ds ++ [name]) (root w') = inr (File content) /\
    fs.lookup (ds ++ [base]) (root w') = inl ENOENT /\
    cwd w' = cwd w /\
    forall q c,
      q <> (ds ++ [base])%list -> q <> (ds ++ [name])%list ->
      fs.lookup q (root w) = inr (File c) -> fs.lookup q (root w') = inr (File c).
Proof.
  intros Hp Hclean Hname Hne Hres Hold Hnew.
  pose proof Hclean as Hclean0.
  apply Forall_app in Hclean as [Hds Hbase].
  inversion Hbase as [|? ? Hb _]; subst.
  assert (Hnew_clean : Forall (fun c => cleanSegment c = true) (ds ++ [name]))
    by (apply Forall_app; split; [assumption|now constructor]).
  destruct (cleanSegment_relative _ Hname) as [He _].
  destruct (rename_sibling ds base name (root w) content Hold Hne Hnew)
    as (n' & Hren & Hn1 & Hn2 & Hn3).
  unfold modifyResourceName, alterItemName, falsy. rewrite Hp, He.
  unfold_monad. cbn [orb str]. world_step. rewrite Hres.
  rewrite (dirname_render ds base Hb)
    by (intros d ds' E; apply joinSegments_clean_not_empty;
        [assumption|rewrite E; discriminate]).
  rewrite (join_render ds name Hds Hname).
  rewrite (components_render _ Hclean0), (components_render _ Hnew_clean), Hren.
  eexists. split; [reflexivity|]. world_step. repeat split; assumption.
Qed.

Lemma rn_renames_in_place_witness :
  exists w',
    modifyResourceName (Some "home/u/notes.txt") (Some "renamed.txt")
      (withCwd "/" sampleWorld) = (Returned tt, w') /\
    calls w' =
    (calls (withCwd "/" sampleWorld) ++
     [CallRename (render (["home"; "u"] ++ ["notes.txt"]))
        (render (["home"; "u"] ++ ["renamed.txt"]))])%list /\
    fs.lookup (["home"; "u"] ++ ["renamed.txt"]) (root w') =
    inr (File [x68; x69]%byte) /\
    fs.lookup (["home"; "u"] ++ ["notes.txt"]) (root w') = inl ENOENT /\
    cwd w' = cwd (withCwd "/" sampleWorld) /\
    forall q c,
      q <> (["home"; "u"] ++ ["notes.txt"])%list ->
      q <> (["home"; "u"] ++ ["renamed.txt"])%list ->
      fs.lookup q (root (withCwd "/" sampleWorld)) = inr (File c) ->
      fs.lookup q (root w') = inr (File c).
Proof.
  exact (rn_renames_in_place (withCwd "/" sampleWorld) "home/u/notes.txt"
           ["home"; "u"] "notes.txt" "renamed.txt" [x68; x69]%byte
           eq_refl ltac:(repeat constructor) eq_refl ltac:(discriminate)
           eq_refl eq_refl (or_introl eq_refl)).
Defined.
